(** * Spatic: pairwise matching of point-of-interest records

    A shallow embedding of [script.py].  The script loads a CSV table of
    records (name, latitude, longitude), compares every pair of records with a
    two-stage filter (great-circle distance, then Levenshtein distance of the
    names) and marks both records of a matching pair with [is_similar = 1].

    Python [float] values are IEEE-754 binary64 numbers and are modelled by
    Rocq's primitive floats, whose comparisons have the same behaviour on NaN.
    Python [int] values are modelled by [Z], list indices produced by [range]
    by [nat].  Exceptions are modelled by an error monad. *)

From Stdlib Require Import ZArith Floats String Ascii Lia.
From stdpp Require Import base option list gmap strings.

Local Open Scope string_scope.
Local Open Scope Z_scope.
Local Open Scope list_scope.

(** ** Exceptions *)

Inductive exn : Type :=
| FileNotFoundError
| KeyError (key : string)
| ValueError (text : string)
| IndexError
| EOFError.

Inductive result (A : Type) : Type :=
| Ok (a : A)
| Raise (e : exn).
Arguments Ok {A} a.
Arguments Raise {A} e.

Definition bind {A B : Type} (m : result A) (k : A -> result B) : result B :=
  match m with
  | Ok a => k a
  | Raise e => Raise e
  end.

Notation "x <- m ;; k" := (bind m (fun x => k))
  (at level 100, m at next level, right associativity).

(** A [for] loop over a list of values whose body may raise: the loop state
    is threaded through the iterations and the first exception ends the loop. *)
Fixpoint for_each {S X : Type} (xs : list X) (body : S -> X -> result S)
    (s : S) : result S :=
  match xs with
  | [] => Ok s
  | x :: xs' => s' <- body s x ;; for_each xs' body s'
  end.

(** ** Module constants *)

(** [MAX_DISTANCE = 200].  The Python constant is the [int] 200; a comparison
    of a float with it is exact, and 200 is a binary64 number, so the constant
    is the float 200. *)
Definition MAX_DISTANCE : float := 200%float.
Definition MAX_EDITS : nat := 5.
Definition CHUNKS : Z := 100000.

(** ** Records *)

(** One row of the dataset: the dict built by [main] for each CSV row. *)
Record entry : Type := Entry {
  name : string;
  latitude : float;
  longitude : float;
  is_similar : Z
}.

Definition coordinate : Type := (float * float)%type.

(** [entry['is_similar'] = v] *)
Definition set_is_similar (v : Z) (e : entry) : entry :=
  {| name := name e; latitude := latitude e; longitude := longitude e;
     is_similar := v |}.

(** [(entry['latitude'], entry['longitude'])] *)
Definition coord (e : entry) : coordinate := (latitude e, longitude e).

(** The fields of a record that the matching pass only reads. *)
Definition payload (e : entry) : string * float * float :=
  (name e, latitude e, longitude e).

(** [entries[i]]: raises [IndexError] out of range. *)
Definition getitem (entries : list entry) (i : nat) : result entry :=
  match entries !! i with
  | Some e => Ok e
  | None => Raise IndexError
  end.

(** [entries[i]['is_similar'] = v]: the dict at position [i] is updated in
    place; the list keeps its length and order. *)
Definition setitem_is_similar (i : nat) (v : Z) (entries : list entry)
    : result (list entry) :=
  e <- getitem entries i ;;
  Ok (<[i := set_is_similar v e]> entries).

(** ** Name similarity *)

(** [Levenshtein.distance]: the number of single-character insertions,
    deletions and substitutions of a shortest edit script. *)
Fixpoint levenshtein (s : string) : string -> nat :=
  fix lev_s (t : string) : nat :=
    match s, t with
    | EmptyString, _ => String.length t
    | _, EmptyString => String.length s
    | String a s', String b t' =>
        if Ascii.eqb a b then levenshtein s' t'
        else S (Nat.min (levenshtein s' t)
                  (Nat.min (lev_s t') (levenshtein s' t')))
    end.

Definition is_name_similar (name1 name2 : string) : bool :=
  Nat.ltb (levenshtein name1 name2) MAX_EDITS.

(** ** The confirmation prompt *)

(** [str.lower] on ASCII letters. *)
Definition lower_ascii (c : ascii) : ascii :=
  let n := nat_of_ascii c in
  if (Nat.leb 65 n && Nat.leb n 90)%bool then ascii_of_nat (n + 32) else c.

Fixpoint lower (s : string) : string :=
  match s with
  | EmptyString => EmptyString
  | String c s' => String (lower_ascii c) (lower s')
  end.

Inductive prompt_result : Type :=
| Proceed
| SysExit (code : Z)
| PromptEOF.

(** The [while] loop of [main] with [proceed] holding the last answer and
    [stdin] the lines still to be read by [input]. *)
Fixpoint prompt_loop (proceed : string) (stdin : list string) : prompt_result :=
  if (negb (String.eqb (lower proceed) "y")
      || negb (String.eqb (lower proceed) "n"))%bool
  then
    if String.eqb proceed "n" then SysExit 0
    else if String.eqb proceed "y" then Proceed
    else match stdin with
         | [] => PromptEOF
         | line :: rest => prompt_loop line rest
         end
  else Proceed.

Definition prompt (stdin : list string) : prompt_result :=
  match stdin with
  | [] => PromptEOF
  | line :: rest => prompt_loop line rest
  end.

(** ** Scheduler state *)

(** The local variables of [find_similar_entries] together with the dataset
    they act on.  [tasks] holds the created tasks that have not run yet: a
    task created by [asyncio.create_task] starts only when the creating
    coroutine awaits, which here is at [asyncio.gather].  [ran] records the
    tasks the event loop has completed, oldest first. *)
Record sched : Type := Sched {
  s_entries : list entry;
  tasks : list (nat * nat);
  counter : Z;
  ran : list (nat * nat)
}.

(** Every task created so far, in creation order. *)
Definition enqueued (st : sched) : list (nat * nat) := ran st ++ tasks st.

(** ** Outcome of the script *)

(** The input file as the script sees it: absent, or a table whose rows
    [csv.DictReader] yields as dicts from column name to cell.  The table is
    one that is read to its end and in which every row has one cell per
    column of the header: a column absent from the header is a key absent
    from every row.  Files that cannot be decoded or parsed, and rows
    shorter or longer than the header, are not described. *)
Inductive input_file : Type :=
| NoFile
| File (rows : list (gmap string string)).

Inductive outcome : Type :=
| Exit (code : Z)
| Uncaught (e : exn)
| Finished (entries : list entry) (written : bool).

(** Exit status of the interpreter: the argument of [sys.exit], 1 after an
    uncaught exception, 0 when the script runs to its end. *)
Definition exit_status (o : outcome) : Z :=
  match o with
  | Exit code => code
  | Uncaught _ => 1
  | Finished _ _ => 0
  end.

(** [row[key]] *)
Definition row_get (row : gmap string string) (key : string) : result string :=
  match row !! key with
  | Some cell => Ok cell
  | None => Raise (KeyError key)
  end.

(** ** Sample instances on which the model is run *)

(** A planar stand-in for the geodesic distance: degrees scaled to metres. *)
Definition flat_distance (c1 c2 : coordinate) : float :=
  let dlat := (c1.1 - c2.1)%float in
  let dlon := (c1.2 - c2.2)%float in
  (PrimFloat.sqrt (dlat * dlat + dlon * dlon) * 111195)%float.

(** A point the geodesic library accepts: finite coordinates and a latitude
    within [-90, 90]. *)
Definition point_ok (c : coordinate) : bool :=
  (PrimFloat.is_finite c.1 && PrimFloat.is_finite c.2
   && PrimFloat.leb (PrimFloat.abs c.1) 90)%bool.

(** A stand-in for the library call that refuses the points the library
    refuses, with [ValueError], and measures the others with
    [flat_distance]. *)
Definition checked_distance (c1 c2 : coordinate) : result float :=
  if (point_ok c1 && point_ok c2)%bool then Ok (flat_distance c1 c2)
  else Raise (ValueError "Point coordinates must be finite and the latitude within [-90; 90]").

(** A distance that sits exactly on the threshold. *)
Definition edge_distance (c1 c2 : coordinate) : float := 200%float.

(** A parser for the few cells the sample tables contain. *)
Definition sample_float (cell : string) : option float :=
  if String.eqb cell "0" then Some 0%float
  else if String.eqb cell "0.0009765625" then Some 0.0009765625%float
  else if String.eqb cell "1" then Some 1%float
  else if String.eqb cell "nan" then Some PrimFloat.nan
  else if String.eqb cell "91" then Some 91%float
  else None.

Definition cafe_a : entry :=
  {| name := "Cafe Roma"; latitude := 0; longitude := 0; is_similar := 0 |}.
Definition cafe_b : entry :=
  {| name := "Cafe Rome"; latitude := 0.0009765625; longitude := 0; is_similar := 0 |}.
Definition cafe_c : entry :=
  {| name := "Caffe Rom"; latitude := 0; longitude := 0.0009765625; is_similar := 0 |}.
Definition depot : entry :=
  {| name := "Depot"; latitude := 1; longitude := 1; is_similar := 0 |}.
Definition flagged (e : entry) : entry := set_is_similar 1 e.

(** Records with a malformed coordinate, as [float] parses the cells [nan]
    and [91]. *)
Definition cafe_nan : entry :=
  {| name := "Cafe Roma"; latitude := PrimFloat.nan; longitude := 0;
     is_similar := 0 |}.
Definition cafe_far : entry :=
  {| name := "Cafe Roma"; latitude := 1; longitude := 1; is_similar := 0 |}.
Definition cafe_nord : entry :=
  {| name := "Cafe Roma Nord"; latitude := 0; longitude := 0; is_similar := 0 |}.

(** Three cafes within 200 m of each other and a depot far away. *)
Definition cafes : list entry := [cafe_a; cafe_b; cafe_c; depot].

Definition row_roma : gmap string string :=
  {[ "name" := "Cafe Roma"; "latitude" := "0"; "longitude" := "0" ]}.
Definition row_rome : gmap string string :=
  {[ "name" := "Cafe Rome"; "latitude" := "0.0009765625"; "longitude" := "0" ]}.
Definition row_no_latitude : gmap string string :=
  {[ "name" := "Cafe Roma"; "longitude" := "0" ]}.
Definition row_bad_longitude : gmap string string :=
  {[ "name" := "Cafe Roma"; "latitude" := "0"; "longitude" := "east" ]}.

(** A chain: [cafe_d] is near [cafe_b] but more than 200 m from [cafe_a]. *)
Definition cafe_d : entry :=
  {| name := "Cafe Roma"; latitude := 0.001953125; longitude := 0;
     is_similar := 0 |}.
Definition chain : list entry := [cafe_a; cafe_b; cafe_d].

(** Case analysis on the membership of a record in a literal list. *)
Ltac in_sample H :=
  repeat (apply elem_of_cons in H as [->|H]); try (now apply elem_of_nil in H).

(** ** The pair evaluator with a distance call that may raise *)

Module Raising.
Section Library.

(** [geopy.distance.great_circle(coord1, coord2).meters]: the distance, or
    the exception the call raises. *)
Variable great_circle : coordinate -> coordinate -> result float.

Definition distance_between_coordinates (coord1 coord2 : coordinate)
    : result float :=
  great_circle coord1 coord2.

(** [process_entries] has no [try]: an exception of the distance call leaves
    it at the [await], before the name test and before any write. *)
Definition process_entries (i j : nat) (entries : list entry)
    : result (list entry) :=
  entry1 <- getitem entries i ;;
  entry2 <- getitem entries j ;;
  let coord1 := coord entry1 in
  let coord2 := coord entry2 in
  distance <- distance_between_coordinates coord1 coord2 ;;
  if PrimFloat.ltb MAX_DISTANCE distance then Ok entries
  else
    let name_similar := is_name_similar (name entry1) (name entry2) in
    if negb name_similar then Ok entries
    else
      entries <- setitem_is_similar i 1 entries ;;
      setitem_is_similar j 1 entries.

End Library.
End Raising.

(** ** The script *)

Section Script.

(** [geopy.distance.great_circle(coord1, coord2).meters] on the runs where
    the call returns.  The call can also raise, as it does for a point that
    is not finite or whose latitude is outside [-90, 90]; [Raising] keeps
    that outcome for the pair evaluator. *)
Variable great_circle : coordinate -> coordinate -> float.

(** The builtin [float] applied to a cell: [None] stands for [ValueError]. *)
Variable float_of_str : string -> option float.

Definition distance_between_coordinates (coord1 coord2 : coordinate) : float :=
  great_circle coord1 coord2.

Definition process_entries (i j : nat) (entries : list entry)
    : result (list entry) :=
  entry1 <- getitem entries i ;;
  entry2 <- getitem entries j ;;
  let coord1 := coord entry1 in
  let coord2 := coord entry2 in
  let distance := distance_between_coordinates coord1 coord2 in
  if PrimFloat.ltb MAX_DISTANCE distance then Ok entries
  else
    let name_similar := is_name_similar (name entry1) (name entry2) in
    if negb name_similar then Ok entries
    else
      entries <- setitem_is_similar i 1 entries ;;
      setitem_is_similar j 1 entries.

(** [await asyncio.gather] on the pending tasks: run one after the other
    in creation order; none of them suspends. *)
Definition gather (ts : list (nat * nat)) (entries : list entry)
    : result (list entry) :=
  for_each ts (fun es t => process_entries t.1 t.2 es) entries.

(** Body of the inner loop, for one [j]. *)
Definition inner_step (chunks : Z) (i : nat) (st : sched) (j : nat)
    : result sched :=
  let tasks := tasks st ++ [(i, j)] in
  let counter := counter st + 1 in
  if counter =? chunks then
    entries <- gather tasks (s_entries st) ;;
    Ok {| s_entries := entries; tasks := []; counter := 0;
          ran := ran st ++ tasks |}
  else
    Ok {| s_entries := s_entries st; tasks := tasks; counter := counter;
          ran := ran st |}.

(** Body of the outer loop, for one [i]; [n] is [len(entries)]. *)
Definition outer_step (chunks : Z) (n : nat) (st : sched) (i : nat)
    : result sched :=
  e <- getitem (s_entries st) i ;;
  if is_similar e =? 1 then Ok st
  else for_each (seq (i + 1) (n - (i + 1))) (inner_step chunks i) st.

Definition initial (entries : list entry) : sched :=
  {| s_entries := entries; tasks := []; counter := 0; ran := [] |}.

(** The two nested loops, up to and excluding the final [gather]. *)
Definition enumerate (chunks : Z) (entries : list entry) (rows : list nat)
    : result sched :=
  for_each rows (outer_step chunks (length entries)) (initial entries).

(** The last statement of [find_similar_entries]. *)
Definition flush (st : sched) : result sched :=
  if negb (counter st =? 0) then
    entries <- gather (tasks st) (s_entries st) ;;
    Ok {| s_entries := entries; tasks := tasks st; counter := counter st;
          ran := ran st ++ tasks st |}
  else Ok st.

(** [find_similar_entries] with the batch size as an argument, returning the
    final scheduler state. *)
Definition run_scheduler (chunks : Z) (entries : list entry) : result sched :=
  st <- enumerate chunks entries (seq 0 (length entries)) ;;
  flush st.

Definition find_similar_entries (entries : list entry) : result (list entry) :=
  st <- run_scheduler CHUNKS entries ;; Ok (s_entries st).

(** The dict built for one CSV row. *)
Definition load_row (row : gmap string string) : result entry :=
  nm <- row_get row "name" ;;
  lat_cell <- row_get row "latitude" ;;
  lat <- match float_of_str lat_cell with
         | Some x => Ok x
         | None => Raise (ValueError lat_cell)
         end ;;
  lon_cell <- row_get row "longitude" ;;
  lon <- match float_of_str lon_cell with
         | Some x => Ok x
         | None => Raise (ValueError lon_cell)
         end ;;
  Ok {| name := nm; latitude := lat; longitude := lon; is_similar := 0 |}.

Fixpoint load_rows (rows : list (gmap string string)) : result (list entry) :=
  match rows with
  | [] => Ok []
  | row :: rows' =>
      e <- load_row row ;;
      es <- load_rows rows' ;;
      Ok (e :: es)
  end.

(** The [try] block of [main] that reads the input file. *)
Definition load (input : input_file) : result (list entry) :=
  match input with
  | NoFile => Raise FileNotFoundError
  | File rows => load_rows rows
  end.

(** [main]: [stdin] holds the lines typed at the prompt, [out_ok] tells
    whether the output file can be written. *)
Definition main (input : input_file) (stdin : list string) (out_ok : bool)
    : outcome :=
  match load input with
  | Raise _ => Exit 0
  | Ok entries =>
      match prompt stdin with
      | SysExit code => Exit code
      | PromptEOF => Uncaught EOFError
      | Proceed =>
          match find_similar_entries entries with
          | Raise e => Uncaught e
          | Ok entries' => Finished entries' out_ok
          end
      end
  end.

(** The [__main__] block: the existence check, then [asyncio.run(main(...))]. *)
Definition script (input : input_file) (stdin : list string) (out_ok : bool)
    : outcome :=
  match input with
  | NoFile => Exit 0
  | File _ => main input stdin out_ok
  end.


(** ** Specification vocabulary *)

(** The dataset after [entries[k]['is_similar'] = 1]. *)
Definition mark (k : nat) (entries : list entry) : list entry :=
  alter (set_is_similar 1) k entries.

(** Stage 1 does not reject: [distance > MAX_DISTANCE] is false. *)
Definition stage1_passes (e1 e2 : entry) : bool :=
  negb (PrimFloat.ltb MAX_DISTANCE
          (distance_between_coordinates (coord e1) (coord e2))).

(** Both stages pass for the records [e1], [e2], taken in this order. *)
Definition pair_matches (e1 e2 : entry) : bool :=
  stage1_passes e1 e2 && is_name_similar (name e1) (name e2).


(** Record [k] of the dataset has a partner at another index; the two records
    are compared in dataset order, as the scheduler does. *)
Definition has_partner (R : entry -> entry -> Prop) (entries : list entry)
    (k : nat) : Prop :=
  ∃ k' e e', entries !! k = Some e ∧ entries !! k' = Some e' ∧
    (((k < k')%nat ∧ R e e') ∨ ((k' < k)%nat ∧ R e' e)).

(** How one record may change during the matching pass, relative to the
    record [e0] that was loaded at index [k] of [entries0]: the payload is
    kept, and the flag is either the loaded one or 1 because of a match. *)
Definition record_evolves (entries0 : list entry) (k : nat) (e0 e : entry)
    : Prop :=
  payload e = payload e0 ∧
  (is_similar e = is_similar e0
   ∨ (is_similar e = 1 ∧ has_partner (fun a b => pair_matches a b = true) entries0 k)).

Definition evolves (entries0 entries : list entry) : Prop :=
  length entries = length entries0 ∧
  ∀ k e0 e, entries0 !! k = Some e0 → entries !! k = Some e →
            record_evolves entries0 k e0 e.

(** A task whose indices are those of a candidate pair of a dataset of
    length [n]. *)
Definition candidate (n : nat) (t : nat * nat) : Prop :=
  (t.1 < t.2 < n)%nat.

(** Invariant of the scheduler state, for the dataset [entries0] it started
    from. *)
Definition sched_inv (entries0 : list entry) (st : sched) : Prop :=
  evolves entries0 (s_entries st) ∧
  counter st = Z.of_nat (length (tasks st)) ∧
  Forall (candidate (length entries0)) (tasks st) ∧
  gather (ran st) entries0 = Ok (s_entries st).

(** The inputs on which the load step of [main] fails. *)
Definition load_error (input : input_file) : Prop :=
  input = NoFile
  ∨ ∃ rows row, input = File rows ∧ row ∈ rows ∧
      (row !! "name" = None
       ∨ row !! "latitude" = None
       ∨ row !! "longitude" = None
       ∨ (∃ cell, row !! "latitude" = Some cell ∧ float_of_str cell = None)
       ∨ (∃ cell, row !! "longitude" = Some cell ∧ float_of_str cell = None)).

(** The pairs of row [i] of a dataset of length [n], in the order in which
    the inner loop creates their tasks. *)
Definition row_pairs (n i : nat) : list (nat * nat) :=
  pair i <$> seq (i + 1) (n - (i + 1)).

(** All candidate pairs of a dataset of length [n], row after row. *)
Definition all_pairs (n : nat) : list (nat * nat) :=
  seq 0 n ≫= row_pairs n.

(** Both stages pass for the task [t], decided on the records of [base]. *)
Definition task_matches (base : list entry) (t : nat * nat) : bool :=
  match base !! t.1, base !! t.2 with
  | Some e1, Some e2 => pair_matches e1 e2
  | _, _ => false
  end.

(** The effect of the task [t] on the dataset [acc], decided on the records
    of [base]. *)
Definition apply_task (base : list entry) (acc : list entry) (t : nat * nat)
    : result (list entry) :=
  match base !! t.1, base !! t.2 with
  | Some e1, Some e2 =>
      Ok (if pair_matches e1 e2 then mark t.2 (mark t.1 acc) else acc)
  | _, _ => Raise IndexError
  end.

(** Record [k] belongs to a matching task of [ts]. *)
Definition hit (base : list entry) (ts : list (nat * nat)) (k : nat) : bool :=
  existsb (fun t => (Nat.eqb t.1 k || Nat.eqb t.2 k) && task_matches base t) ts.

(** The dataset [acc] with flag 1 on every record that belongs to a matching
    task of [ts]. *)
Definition flag_hits (base : list entry) (ts : list (nat * nat))
    (acc : list entry) : list entry :=
  imap (fun k e => if hit base ts k then set_is_similar 1 e else e) acc.

(** The flags of [entries'] are those of [entries] or 1; nothing else
    differs. *)
Definition grows (entries entries' : list entry) : Prop :=
  length entries' = length entries ∧
  ∀ k e e', entries !! k = Some e → entries' !! k = Some e' →
    payload e' = payload e ∧
    (is_similar e' = is_similar e ∨ is_similar e' = 1).

(** The state [st'] is reached from [st] by running some more tasks. *)
Definition advances (st st' : sched) : Prop :=
  ∃ new, ran st' = ran st ++ new ∧
         gather new (s_entries st) = Ok (s_entries st').

(** The record built from a CSV row: the name is copied, the coordinates are
    the parsed cells and the flag is 0. *)
Definition row_entry (row : gmap string string) (e : entry) : Prop :=
  row !! "name" = Some (name e) ∧
  (∃ cell, row !! "latitude" = Some cell ∧ float_of_str cell = Some (latitude e)) ∧
  (∃ cell, row !! "longitude" = Some cell ∧ float_of_str cell = Some (longitude e)) ∧
  is_similar e = 0.

Local Close Scope Z_scope.

(** ** Comparisons of binary64 numbers *)

Lemma SFcompare_antisym (x y : spec_float) :
  SFcompare y x = option_map CompOpp (SFcompare x y).
Proof.
  destruct x as [sx|sx| |sx mx ex], y as [sy|sy| |sy my ey]; simpl;
    try (destruct sx); try (destruct sy); simpl; try reflexivity.
  - rewrite (Z.compare_antisym ey ex).
    destruct (ey ?= ex)%Z; simpl; try reflexivity.
    now rewrite (Pos.compare_cont_antisym mx my Eq).
  - rewrite (Z.compare_antisym ey ex).
    destruct (ey ?= ex)%Z; simpl; try reflexivity.
    now rewrite (Pos.compare_cont_antisym mx my Eq).
Qed.


Lemma float_eq_not_gt (x d : float) :
  PrimFloat.eqb d x = true → PrimFloat.ltb x d = false.
Proof.
  rewrite FloatAxioms.eqb_spec, FloatAxioms.ltb_spec. unfold SFeqb, SFltb.
  rewrite (SFcompare_antisym (Prim2SF d) (Prim2SF x)).
  destruct (SFcompare (Prim2SF d) (Prim2SF x)) as [[]|]; simpl;
    congruence.
Qed.


(** ** The loop combinator *)

Lemma for_each_app {S X : Type} (xs ys : list X) (body : S → X → result S)
    (s : S) :
  for_each (xs ++ ys) body s = (s' <- for_each xs body s ;; for_each ys body s').
Proof.
  revert s. induction xs as [|x xs IH]; intros s; simpl; [reflexivity|].
  destruct (body s x) as [s1|err]; simpl; [apply IH | reflexivity].
Qed.

(** ** Reading and marking records *)

Lemma getitem_Ok (entries : list entry) (i : nat) (e : entry) :
  entries !! i = Some e → getitem entries i = Ok e.
Proof. unfold getitem. now intros ->. Qed.

Lemma getitem_inv (entries : list entry) (i : nat) (e : entry) :
  getitem entries i = Ok e → entries !! i = Some e.
Proof. unfold getitem. destruct (entries !! i); congruence. Qed.

Lemma setitem_mark (entries : list entry) (k : nat) (e : entry) :
  entries !! k = Some e → setitem_is_similar k 1 entries = Ok (mark k entries).
Proof.
  intros Hk. unfold setitem_is_similar. rewrite (getitem_Ok _ _ _ Hk). simpl.
  f_equal. apply list_eq. intros i. unfold mark.
  destruct (decide (k = i)) as [<-|Hne].
  - rewrite list_lookup_insert_eq by (eapply lookup_lt_Some; eauto).
    now rewrite list_lookup_alter_eq, Hk.
  - now rewrite list_lookup_insert_ne, list_lookup_alter_ne.
Qed.

Lemma length_mark (entries : list entry) (k : nat) :
  length (mark k entries) = length entries.
Proof. apply length_alter. Qed.

Lemma lookup_mark_eq (entries : list entry) (k : nat) :
  mark k entries !! k = set_is_similar 1 <$> entries !! k.
Proof. apply list_lookup_alter_eq. Qed.

Lemma lookup_mark_ne (entries : list entry) (k i : nat) :
  k ≠ i → mark k entries !! i = entries !! i.
Proof. apply list_lookup_alter_ne. Qed.

Lemma lookup_mark (entries : list entry) (k i : nat) (e' : entry) :
  mark k entries !! i = Some e' →
  ∃ e, entries !! i = Some e ∧ payload e' = payload e ∧
       ((k = i ∧ is_similar e' = 1%Z) ∨ (k ≠ i ∧ e' = e)).
Proof.
  destruct (decide (k = i)) as [<-|Hne].
  - rewrite lookup_mark_eq. destruct (entries !! k) as [e|]; [|discriminate].
    simpl. intros [= <-]. exists e. split; [reflexivity|]. split; [reflexivity|].
    left. split; reflexivity.
  - rewrite lookup_mark_ne by assumption. intros He. exists e'. eauto.
Qed.

Lemma mark_mark (entries : list entry) (k : nat) :
  mark k (mark k entries) = mark k entries.
Proof.
  unfold mark. rewrite list_alter_alter_eq. apply list_alter_ext; [|reflexivity].
  intros e _. reflexivity.
Qed.

Lemma mark_comm (entries : list entry) (i j : nat) :
  mark i (mark j entries) = mark j (mark i entries).
Proof.
  unfold mark. destruct (decide (i = j)) as [->|Hne]; [reflexivity|].
  now apply list_alter_alter_ne.
Qed.

(** ** One pair *)

Lemma process_entries_eq (entries : list entry) (i j : nat) (e1 e2 : entry) :
  entries !! i = Some e1 → entries !! j = Some e2 →
  process_entries i j entries
  = Ok (if pair_matches e1 e2 then mark j (mark i entries) else entries).
Proof.
  intros Hi Hj. unfold process_entries, pair_matches, stage1_passes.
  rewrite (getitem_Ok _ _ _ Hi), (getitem_Ok _ _ _ Hj). simpl.
  destruct (PrimFloat.ltb MAX_DISTANCE _); simpl; [reflexivity|].
  destruct (is_name_similar (name e1) (name e2)); simpl; [|reflexivity].
  rewrite (setitem_mark _ _ _ Hi). simpl.
  assert (is_Some (mark i entries !! j)) as [e2' Hj'].
  { apply lookup_lt_is_Some. rewrite length_mark. eapply lookup_lt_Some; eauto. }
  apply (setitem_mark _ _ _ Hj').
Qed.

Lemma process_entries_inv (entries entries' : list entry) (i j : nat) :
  process_entries i j entries = Ok entries' →
  ∃ e1 e2, entries !! i = Some e1 ∧ entries !! j = Some e2 ∧
    entries' = if pair_matches e1 e2 then mark j (mark i entries) else entries.
Proof.
  intros Hrun.
  destruct (entries !! i) as [e1|] eqn:Hi.
  - destruct (entries !! j) as [e2|] eqn:Hj.
    + rewrite (process_entries_eq _ _ _ _ _ Hi Hj) in Hrun.
      exists e1, e2. repeat split. congruence.
    + unfold process_entries, getitem in Hrun. rewrite Hi, Hj in Hrun.
      discriminate.
  - unfold process_entries, getitem in Hrun. rewrite Hi in Hrun. discriminate.
Qed.

Lemma process_entries_total (entries : list entry) (i j : nat) :
  i < length entries → j < length entries →
  ∃ e1 e2, entries !! i = Some e1 ∧ entries !! j = Some e2 ∧
    process_entries i j entries
    = Ok (if pair_matches e1 e2 then mark j (mark i entries) else entries).
Proof.
  intros Hi Hj.
  destruct (lookup_lt_is_Some_2 entries i Hi) as [e1 H1].
  destruct (lookup_lt_is_Some_2 entries j Hj) as [e2 H2].
  exists e1, e2. eauto using process_entries_eq.
Qed.

Lemma pair_matches_payload (a a' b b' : entry) :
  payload a' = payload a → payload b' = payload b →
  pair_matches a' b' = pair_matches a b.
Proof.
  unfold payload, pair_matches, stage1_passes, coord.
  intros [= -> -> ->] [= -> -> ->]. reflexivity.
Qed.



(** C4: a distance equal to [MAX_DISTANCE] passes stage 1, so that the pair
    is decided by the names; names whose edit distance equals [MAX_EDITS]
    are not similar, and such a pair is left unflagged. *)
Theorem threshold_boundaries (entries : list entry) (i j : nat)
    (entry1 entry2 : entry) :
  i < j → entries !! i = Some entry1 → entries !! j = Some entry2 →
  (PrimFloat.eqb (great_circle (coord entry1) (coord entry2)) MAX_DISTANCE
     = true →
   stage1_passes entry1 entry2 = true ∧
   process_entries i j entries
   = Ok (if is_name_similar (name entry1) (name entry2)
         then mark j (mark i entries) else entries)) ∧
  (levenshtein (name entry1) (name entry2) = MAX_EDITS →
   is_name_similar (name entry1) (name entry2) = false ∧
   process_entries i j entries = Ok entries).
Proof.
  intros _ Hi Hj. rewrite (process_entries_eq _ _ _ _ _ Hi Hj).
  unfold pair_matches, stage1_passes, distance_between_coordinates. split.
  - intros Heq. now rewrite (float_eq_not_gt _ _ Heq).
  - intros Hlev. unfold is_name_similar. rewrite Hlev. simpl.
    now rewrite andb_false_r.
Qed.

(** C7: evaluating a pair [i < j] of the dataset a second time changes
    nothing. *)
Theorem process_entries_idempotent (entries : list entry) (i j : nat) :
  i < j < length entries →
  ∃ entries', process_entries i j entries = Ok entries' ∧
              process_entries i j entries' = Ok entries'.
Proof.
  intros [Hij Hj].
  destruct (process_entries_total entries i j) as (e1 & e2 & Hi & Hj' & Hrun);
    [lia | lia |].
  rewrite Hrun. eexists. split; [reflexivity|].
  destruct (pair_matches e1 e2) eqn:Hm.
  - assert (mark j (mark i entries) !! i = Some (set_is_similar 1 e1)) as Hi2.
    { rewrite lookup_mark_ne, lookup_mark_eq, Hi by lia. reflexivity. }
    assert (mark j (mark i entries) !! j = Some (set_is_similar 1 e2)) as Hj2.
    { rewrite lookup_mark_eq, lookup_mark_ne, Hj' by lia. reflexivity. }
    rewrite (process_entries_eq _ _ _ _ _ Hi2 Hj2).
    rewrite (pair_matches_payload e1 (set_is_similar 1 e1) e2
               (set_is_similar 1 e2) eq_refl eq_refl), Hm.
    f_equal. rewrite (mark_comm (mark i entries) i j).
    now rewrite (mark_mark (mark i (mark i entries)) j), mark_mark.
  - rewrite (process_entries_eq _ _ _ _ _ Hi Hj'). now rewrite Hm.
Qed.

(** ** Evolution of the dataset *)

Lemma evolves_refl (entries : list entry) : evolves entries entries.
Proof.
  split; [reflexivity|]. intros k e0 e H0 H. rewrite H0 in H.
  injection H as <-. split; [reflexivity | now left].
Qed.

Lemma evolves_process (entries0 entries : list entry) (i j : nat) :
  evolves entries0 entries → candidate (length entries0) (i, j) →
  ∃ entries', process_entries i j entries = Ok entries' ∧
              evolves entries0 entries'.
Proof.
  intros [Hlen Hrec] [Hij Hj]. simpl in Hij, Hj.
  destruct (process_entries_total entries i j) as (e1 & e2 & Hi & Hj' & Hrun);
    [lia | lia |].
  rewrite Hrun. eexists. split; [reflexivity|].
  destruct (pair_matches e1 e2) eqn:Hm; [|now split].
  destruct (lookup_lt_is_Some_2 entries0 i) as [a1 Ha1]; [lia|].
  destruct (lookup_lt_is_Some_2 entries0 j) as [a2 Ha2]; [lia|].
  destruct (Hrec i a1 e1 Ha1 Hi) as [Hp1 _].
  destruct (Hrec j a2 e2 Ha2 Hj') as [Hp2 _].
  assert (pair_matches a1 a2 = true) as Hm0.
  { now rewrite <- (pair_matches_payload a1 e1 a2 e2 Hp1 Hp2). }
  split; [now rewrite !length_mark|].
  intros k a e Hk0 Hk.
  apply lookup_mark in Hk as (em & Hkm & Hpm & Hcase_j).
  apply lookup_mark in Hkm as (eo & Hko & Hpo & Hcase_i).
  destruct (Hrec k a eo Hk0 Hko) as [Hpa Hflag].
  split; [congruence|].
  destruct Hcase_j as [[-> Hone]|[Hnej ->]].
  - right. split; [assumption|]. exists i, a2, a1.
    split; [assumption|]. split; [assumption|]. right. now split.
  - destruct Hcase_i as [[-> Hone]|[Hnei ->]]; [|assumption].
    right. split; [assumption|]. exists j, a1, a2.
    split; [assumption|]. split; [assumption|]. left. now split.
Qed.

Lemma gather_app (ts1 ts2 : list (nat * nat)) (entries : list entry) :
  gather (ts1 ++ ts2) entries
  = (entries' <- gather ts1 entries ;; gather ts2 entries').
Proof. apply for_each_app. Qed.

Lemma gather_evolves (entries0 : list entry) (ts : list (nat * nat)) :
  Forall (candidate (length entries0)) ts →
  ∀ entries, evolves entries0 entries →
  ∃ entries', gather ts entries = Ok entries' ∧ evolves entries0 entries'.
Proof.
  induction 1 as [|[i j] ts Ht _ IH]; intros entries Hev.
  - exists entries. now split.
  - destruct (evolves_process _ _ i j Hev Ht) as (es1 & Hrun & Hev1).
    destruct (IH es1 Hev1) as (es2 & Hrest & Hev2).
    exists es2. split; [|assumption].
    unfold gather in *. simpl. now rewrite Hrun.
Qed.

(** ** Invariant of the scheduler *)

Lemma sched_inv_initial (entries : list entry) :
  sched_inv entries (initial entries).
Proof.
  split; [apply evolves_refl|]. split; [reflexivity|].
  split; [constructor | reflexivity].
Qed.

Lemma inner_step_inv (entries0 : list entry) (chunks : Z) (i j : nat)
    (st : sched) :
  sched_inv entries0 st → candidate (length entries0) (i, j) →
  ∃ st', inner_step chunks i st j = Ok st' ∧ sched_inv entries0 st' ∧
         enqueued st' = enqueued st ++ [(i, j)].
Proof.
  intros (Hev & Hcnt & Hcand & Hran) Hij. unfold inner_step.
  assert (Forall (candidate (length entries0)) (tasks st ++ [(i, j)])) as Hall.
  { apply Forall_app. split; [assumption | now constructor]. }
  destruct (counter st + 1 =? chunks)%Z.
  - destruct (gather_evolves _ _ Hall _ Hev) as (es' & Hrun & Hev').
    rewrite Hrun. simpl. eexists. split; [reflexivity|].
    unfold sched_inv, enqueued; simpl. split; [split; [exact Hev'|]|].
    + split; [reflexivity|]. split; [constructor|].
      now rewrite gather_app, Hran.
    + now rewrite app_nil_r, app_assoc.
  - eexists. split; [reflexivity|].
    unfold sched_inv, enqueued; simpl. split; [split; [exact Hev|]|].
    + split; [rewrite length_app; simpl; lia|]. now split.
    + now rewrite app_assoc.
Qed.

Lemma inner_loop_inv (entries0 : list entry) (chunks : Z) (i : nat)
    (js : list nat) :
  Forall (fun j => candidate (length entries0) (i, j)) js →
  ∀ st, sched_inv entries0 st →
  ∃ st', for_each js (inner_step chunks i) st = Ok st' ∧
         sched_inv entries0 st' ∧
         enqueued st' = enqueued st ++ (pair i <$> js).
Proof.
  induction 1 as [|j js Hj _ IH]; intros st Hinv.
  - exists st. simpl. now rewrite app_nil_r.
  - destruct (inner_step_inv _ chunks i j st Hinv Hj) as (st1 & Hstep & Hinv1 & Hq1).
    destruct (IH st1 Hinv1) as (st2 & Hrest & Hinv2 & Hq2).
    exists st2. simpl. rewrite Hstep. simpl. split; [assumption|].
    split; [assumption|]. rewrite Hq2, Hq1. now rewrite <- app_assoc.
Qed.

(** The pairs of row [i] of a dataset of length [n]. *)
Lemma row_candidates (n i : nat) :
  Forall (fun j => candidate n (i, j)) (seq (i + 1) (n - (i + 1))).
Proof.
  apply Forall_forall. intros j Hj. apply elem_of_seq in Hj.
  unfold candidate. simpl. lia.
Qed.

Lemma outer_step_inv (entries0 : list entry) (chunks : Z) (i : nat)
    (st : sched) :
  sched_inv entries0 st → i < length entries0 →
  ∃ e st', s_entries st !! i = Some e ∧
    outer_step chunks (length entries0) st i = Ok st' ∧
    sched_inv entries0 st' ∧
    enqueued st' = enqueued st ++
      (if (is_similar e =? 1)%Z then []
       else pair i <$> seq (i + 1) (length entries0 - (i + 1))).
Proof.
  intros Hinv Hi.
  destruct (lookup_lt_is_Some_2 (s_entries st) i) as [e He].
  { destruct Hinv as [[Hlen _] _]. lia. }
  exists e. unfold outer_step. rewrite (getitem_Ok _ _ _ He). simpl.
  destruct (is_similar e =? 1)%Z.
  - exists st. rewrite app_nil_r. auto.
  - destruct (inner_loop_inv entries0 chunks i _ (row_candidates _ i) st Hinv)
      as (st' & Hrun & Hinv' & Hq).
    exists st'. auto.
Qed.

Lemma outer_loop_inv (entries0 : list entry) (chunks : Z) (rows : list nat) :
  Forall (fun i => i < length entries0) rows →
  ∀ st, sched_inv entries0 st →
  ∃ st' extra,
    for_each rows (outer_step chunks (length entries0)) st = Ok st' ∧
    sched_inv entries0 st' ∧
    enqueued st' = enqueued st ++ extra ∧
    Forall (fun t => t.1 ∈ rows) extra.
Proof.
  induction 1 as [|i rows Hi _ IH]; intros st Hinv.
  - exists st, []. simpl. rewrite app_nil_r. auto.
  - destruct (outer_step_inv _ chunks i st Hinv Hi)
      as (e & st1 & _ & Hstep & Hinv1 & Hq1).
    destruct (IH st1 Hinv1) as (st2 & extra & Hrest & Hinv2 & Hq2 & Hex).
    eexists st2, (_ ++ extra). simpl. rewrite Hstep. simpl.
    split; [assumption|]. split; [assumption|].
    split; [rewrite Hq2, Hq1; now rewrite <- app_assoc|].
    apply Forall_app. split.
    + destruct (is_similar e =? 1)%Z; [constructor|].
      apply Forall_forall. intros t Ht.
      apply list_elem_of_fmap in Ht as (j & -> & _). simpl. left.
    + eapply Forall_impl; [exact Hex|]. intros t Ht. now right.
Qed.

Lemma flush_inv (entries0 : list entry) (st : sched) :
  sched_inv entries0 st →
  ∃ st', flush st = Ok st' ∧ evolves entries0 (s_entries st') ∧
         ran st' = enqueued st ∧
         gather (ran st') entries0 = Ok (s_entries st').
Proof.
  intros (Hev & Hcnt & Hcand & Hran). unfold flush, enqueued.
  destruct (counter st =? 0)%Z eqn:Hzero; simpl.
  - exists st. apply Z.eqb_eq in Hzero.
    assert (tasks st = []) as ->.
    { destruct (tasks st); [reflexivity | simpl in Hcnt; lia]. }
    rewrite app_nil_r. auto.
  - destruct (gather_evolves _ _ Hcand _ Hev) as (es' & Hrun & Hev').
    rewrite Hrun. simpl. eexists. split; [reflexivity|]. simpl.
    split; [assumption|]. split; [reflexivity|].
    now rewrite gather_app, Hran.
Qed.

Lemma seq_bounded (n : nat) : Forall (fun i => i < n) (seq 0 n).
Proof. apply Forall_forall. intros i Hi. apply elem_of_seq in Hi. lia. Qed.

Lemma run_scheduler_evolves (chunks : Z) (entries : list entry) :
  ∃ st, run_scheduler chunks entries = Ok st ∧
        evolves entries (s_entries st) ∧
        gather (ran st) entries = Ok (s_entries st).
Proof.
  destruct (outer_loop_inv entries chunks _ (seq_bounded _) _
              (sched_inv_initial entries))
    as (st & extra & Hloop & Hinv & _ & _).
  destruct (flush_inv _ _ Hinv) as (st' & Hflush & Hev & _ & Hran).
  exists st'. unfold run_scheduler, enumerate. rewrite Hloop. simpl. auto.
Qed.

Lemma find_similar_entries_evolves (entries : list entry) :
  ∃ final, find_similar_entries entries = Ok final ∧ evolves entries final.
Proof.
  destruct (run_scheduler_evolves CHUNKS entries) as (st & Hrun & Hev & _).
  exists (s_entries st). unfold find_similar_entries. rewrite Hrun. now split.
Qed.

(** ** The enumeration of pairs *)

Lemma seq_split_at (n i : nat) :
  i < n → seq 0 n = seq 0 i ++ i :: seq (i + 1) (n - (i + 1)).
Proof.
  intros Hi. remember (n - (i + 1)) as m eqn:Hm.
  replace n with (i + S m) by lia. rewrite seq_app. simpl.
  now rewrite Nat.add_1_r.
Qed.

(** C2: pruning acts on the left index only.  Let [st_i] be the scheduler
    state when the outer loop reaches [i].  If record [i] is not flagged in
    [st_i], every pair [(i, j)] with [i < j < n] is evaluated during the
    pass, whatever the flag of record [j]; if it is flagged, no pair of row
    [i] is evaluated.  The evaluated pairs are those recorded in [ran], and
    the final dataset is the result of evaluating them in order.  This holds
    for every batch size, [CHUNKS] included. *)
Theorem left_hand_pruning (chunks : Z) (entries : list entry) (i : nat) :
  i < length entries →
  ∃ st_i e_i final,
    enumerate chunks entries (seq 0 i) = Ok st_i ∧
    s_entries st_i !! i = Some e_i ∧
    run_scheduler chunks entries = Ok final ∧
    gather (ran final) entries = Ok (s_entries final) ∧
    (is_similar e_i ≠ 1%Z →
     ∀ j, i < j < length entries → (i, j) ∈ ran final) ∧
    (is_similar e_i = 1%Z → ∀ j, (i, j) ∉ ran final).
Proof.
  intros Hi.
  assert (Forall (fun k => k < length entries) (seq 0 i)) as Hrows1.
  { apply Forall_forall. intros k Hk. apply elem_of_seq in Hk. lia. }
  assert (Forall (fun k => k < length entries)
            (seq (i + 1) (length entries - (i + 1)))) as Hrows2.
  { apply Forall_forall. intros k Hk. apply elem_of_seq in Hk. lia. }
  destruct (outer_loop_inv entries chunks _ Hrows1 _ (sched_inv_initial entries))
    as (st_i & extra1 & Hloop1 & Hinv1 & Hq1 & Hex1).
  destruct (outer_step_inv entries chunks i st_i Hinv1 Hi)
    as (e_i & st1 & He_i & Hstep & Hinv2 & Hq2).
  destruct (outer_loop_inv entries chunks _ Hrows2 _ Hinv2)
    as (st2 & extra2 & Hloop2 & Hinv3 & Hq3 & Hex2).
  destruct (flush_inv _ _ Hinv3) as (final & Hflush & _ & Hran & Hgather).
  exists st_i, e_i, final.
  split; [exact Hloop1|]. split; [exact He_i|].
  split.
  { unfold run_scheduler, enumerate. rewrite (seq_split_at _ i Hi).
    rewrite for_each_app. unfold enumerate in Hloop1. rewrite Hloop1. simpl.
    rewrite Hstep. simpl. now rewrite Hloop2. }
  split; [exact Hgather|].
  rewrite Hran, Hq3, Hq2, Hq1. unfold enqueued. simpl.
  rewrite Forall_forall in Hex1, Hex2.
  destruct (Z.eqb_spec (is_similar e_i) 1) as [Hflag|Hflag]; split;
    try congruence; intros _ j.
  - rewrite app_nil_r. intros Hin.
    apply elem_of_app in Hin as [Hin|Hin].
    + apply Hex1 in Hin. simpl in Hin. apply elem_of_seq in Hin. lia.
    + apply Hex2 in Hin. simpl in Hin. apply elem_of_seq in Hin. lia.
  - intros Hj. apply elem_of_app. left. apply elem_of_app. right.
    apply list_elem_of_fmap. exists j. split; [reflexivity|].
    apply elem_of_seq. lia.
Qed.

(** ** Soundness of the flag *)




(** ** Loading *)

Lemma load_row_flag (row : gmap string string) (e : entry) :
  load_row row = Ok e → is_similar e = 0%Z.
Proof.
  unfold load_row, row_get.
  destruct (row !! "name"); simpl; [|discriminate].
  destruct (row !! "latitude") as [lat|]; simpl; [|discriminate].
  destruct (float_of_str lat); simpl; [|discriminate].
  destruct (row !! "longitude") as [lon|]; simpl; [|discriminate].
  destruct (float_of_str lon); simpl; [|discriminate].
  now intros [= <-].
Qed.

Lemma load_rows_flags (rows : list (gmap string string)) (entries : list entry) :
  load_rows rows = Ok entries → ∀ e, e ∈ entries → is_similar e = 0%Z.
Proof.
  revert entries. induction rows as [|row rows IH]; intros entries; simpl.
  - intros [= <-] e He. now apply elem_of_nil in He.
  - destruct (load_row row) as [e0|] eqn:Hrow; simpl; [|discriminate].
    destruct (load_rows rows) as [es|]; simpl; [|discriminate].
    intros [= <-] e He. apply elem_of_cons in He as [->|He].
    + eapply load_row_flag; eauto.
    + eapply IH; eauto.
Qed.

Lemma load_row_raises (row : gmap string string) :
  (row !! "name" = None
   ∨ row !! "latitude" = None
   ∨ row !! "longitude" = None
   ∨ (∃ cell, row !! "latitude" = Some cell ∧ float_of_str cell = None)
   ∨ (∃ cell, row !! "longitude" = Some cell ∧ float_of_str cell = None)) →
  ∃ err, load_row row = Raise err.
Proof.
  intros Hbad. unfold load_row, row_get.
  destruct (row !! "name"); simpl; [|eauto].
  destruct (row !! "latitude") as [lat|]; simpl; [|eauto].
  destruct (float_of_str lat) eqn:Hlat; simpl; [|eauto].
  destruct (row !! "longitude") as [lon|]; simpl; [|eauto].
  destruct (float_of_str lon) eqn:Hlon; simpl; [|eauto].
  exfalso.
  destruct Hbad as [H|[H|[H|[(c & [= <-] & H)|(c & [= <-] & H)]]]];
    congruence.
Qed.

Lemma load_rows_raises (rows : list (gmap string string))
    (row : gmap string string) :
  row ∈ rows → (∃ err, load_row row = Raise err) →
  ∃ err, load_rows rows = Raise err.
Proof.
  intros Hin [err Herr]. induction rows as [|r rows IH].
  - now apply elem_of_nil in Hin.
  - simpl. apply elem_of_cons in Hin as [<-|Hin].
    + rewrite Herr. simpl. eauto.
    + destruct (load_row r); simpl; [|eauto].
      destruct (IH Hin) as [err' ->]. simpl. eauto.
Qed.

(** C6: a loaded record has flag 0, and the flag only ever moves to 1: one
    evaluation of a pair, and the matching pass as a whole, leave each flag
    as it was or set it to 1, so that a flag that is 1 stays 1. *)
Theorem flag_starts_zero_and_monotonic :
  (∀ input entries, load input = Ok entries →
     ∀ e, e ∈ entries → is_similar e = 0%Z) ∧
  (∀ i j entries entries', process_entries i j entries = Ok entries' →
     length entries' = length entries ∧
     ∀ k e e', entries !! k = Some e → entries' !! k = Some e' →
       is_similar e' = is_similar e ∨ is_similar e' = 1%Z) ∧
  (∀ entries, ∃ final, find_similar_entries entries = Ok final ∧
     length final = length entries ∧
     ∀ k e e', entries !! k = Some e → final !! k = Some e' →
       (is_similar e' = is_similar e ∨ is_similar e' = 1%Z) ∧
       (is_similar e = 1%Z → is_similar e' = 1%Z)).
Proof.
  split; [|split].
  - intros [|rows] entries; simpl; [discriminate|]. apply load_rows_flags.
  - intros i j entries entries' Hrun.
    apply process_entries_inv in Hrun as (e1 & e2 & Hi & Hj & ->).
    destruct (pair_matches e1 e2).
    + split; [now rewrite !length_mark|]. intros k e e' Hk Hk'.
      apply lookup_mark in Hk' as (em & Hkm & _ & Hcase_j).
      apply lookup_mark in Hkm as (eo & Hko & _ & Hcase_i).
      assert (eo = e) as -> by congruence.
      destruct Hcase_j as [[_ Hone]|[_ ->]]; [now right|].
      destruct Hcase_i as [[_ Hone]|[_ ->]]; [now right | now left].
    + split; [reflexivity|]. intros k e e' Hk Hk'. left. congruence.
  - intros entries.
    destruct (find_similar_entries_evolves entries) as (final & Hrun & Hlen & Hrec).
    exists final. split; [assumption|]. split; [assumption|].
    intros k e e' Hk Hk'.
    destruct (Hrec k e e' Hk Hk') as [_ [Hsame|[Hone _]]].
    + split; [now left | congruence].
    + split; [now right | now intros _].
Qed.

(** ** The frame *)

Lemma payload_mark (entries : list entry) (k : nat) :
  payload <$> mark k entries = payload <$> entries.
Proof.
  apply list_eq. intros i. rewrite !list_lookup_fmap.
  destruct (decide (k = i)) as [<-|Hne].
  - rewrite lookup_mark_eq. now destruct (entries !! k).
  - now rewrite lookup_mark_ne.
Qed.

Lemma evolves_payload (entries0 entries : list entry) :
  evolves entries0 entries → payload <$> entries = payload <$> entries0.
Proof.
  intros [Hlen Hrec]. apply list_eq. intros i. rewrite !list_lookup_fmap.
  destruct (entries0 !! i) as [e0|] eqn:H0.
  - destruct (lookup_lt_is_Some_2 entries i) as [e He].
    { rewrite Hlen. eapply lookup_lt_Some; eauto. }
    rewrite He. simpl. f_equal. apply (Hrec i e0 e H0 He).
  - apply lookup_ge_None in H0. rewrite <- Hlen in H0.
    apply lookup_ge_None in H0. now rewrite H0.
Qed.

(** C8: one evaluation of a pair [(i, j)] keeps the name, latitude and
    longitude of every record and leaves every record other than [i] and [j]
    as it was; the whole matching pass keeps the sequence of names,
    latitudes and longitudes, hence the length and order of the dataset. *)
Theorem frame_condition (entries : list entry) :
  (∀ i j entries', process_entries i j entries = Ok entries' →
     payload <$> entries' = payload <$> entries ∧
     ∀ k, k ≠ i → k ≠ j → entries' !! k = entries !! k) ∧
  (∃ final, find_similar_entries entries = Ok final ∧
     payload <$> final = payload <$> entries ∧
     length final = length entries).
Proof.
  split.
  - intros i j entries' Hrun.
    apply process_entries_inv in Hrun as (e1 & e2 & Hi & Hj & ->).
    destruct (pair_matches e1 e2); [|now split]. split.
    + now rewrite !payload_mark.
    + intros k Hki Hkj. now rewrite !lookup_mark_ne by congruence.
  - destruct (find_similar_entries_evolves entries) as (final & Hrun & Hev).
    exists final. split; [assumption|].
    split; [now apply evolves_payload | apply Hev].
Qed.

(** ** The prompt *)

Lemma prompt_loop_unfold (proceed : string) (stdin : list string) :
  prompt_loop proceed stdin
  = if String.eqb proceed "n" then SysExit 0
    else if String.eqb proceed "y" then Proceed
    else prompt stdin.
Proof.
  destruct stdin as [|line rest]; simpl;
    destruct (String.eqb_spec (lower proceed) "y") as [->|_]; reflexivity.
Qed.

(** C9, as the code has it: the answers [Y] and [N] are not accepted; each
    is discarded like any other invalid answer and the prompt is repeated,
    so that [Y] followed by [n] exits and [N] followed by [y] proceeds. *)
Theorem prompt_is_case_sensitive :
  (∀ rest, prompt ("Y" :: rest) = prompt rest) ∧
  (∀ rest, prompt ("N" :: rest) = prompt rest) ∧
  prompt ["Y"; "n"] = SysExit 0 ∧
  prompt ["N"; "y"] = Proceed.
Proof.
  repeat split; intros; unfold prompt at 1; now rewrite prompt_loop_unfold.
Qed.

(** ** Load errors *)

(** C10: when the input file is missing, a required column is missing in
    some row, or a latitude or longitude cell is not a number, loading
    raises, the script stops at [sys.exit(0)] before the matching pass, and
    its exit status is 0, the exit status of a run that finishes. *)
Theorem load_error_exits_zero (input : input_file) (stdin : list string)
    (out_ok : bool) :
  load_error input →
  (∃ err, load input = Raise err) ∧
  script input stdin out_ok = Exit 0 ∧
  exit_status (script input stdin out_ok) = 0%Z ∧
  ∀ final written, exit_status (Finished final written)
                   = exit_status (script input stdin out_ok).
Proof.
  intros Hbad.
  assert (∃ err, load input = Raise err) as [err Herr].
  { destruct Hbad as [->|(rows & row & -> & Hin & Hrow)]; simpl; [eauto|].
    eapply load_rows_raises; eauto using load_row_raises. }
  assert (script input stdin out_ok = Exit 0) as Hexit.
  { unfold script, main. destruct input; [reflexivity|]. now rewrite Herr. }
  split; [eauto|]. split; [assumption|]. rewrite Hexit. now split.
Qed.

(** ** Edit distance *)

Lemma levenshtein_nil_l (t : string) : levenshtein "" t = String.length t.
Proof. destruct t; reflexivity. Qed.

Lemma levenshtein_nil_r (s : string) : levenshtein s "" = String.length s.
Proof. destruct s; reflexivity. Qed.

Lemma levenshtein_cons (a b : ascii) (s t : string) :
  levenshtein (String a s) (String b t)
  = if Ascii.eqb a b then levenshtein s t
    else S (Nat.min (levenshtein s (String b t))
              (Nat.min (levenshtein (String a s) t) (levenshtein s t))).
Proof. reflexivity. Qed.

Lemma levenshtein_refl (s : string) : levenshtein s s = 0.
Proof.
  induction s as [|a s IH]; [reflexivity|].
  now rewrite levenshtein_cons, Ascii.eqb_refl.
Qed.

Lemma levenshtein_sym (s t : string) : levenshtein s t = levenshtein t s.
Proof.
  revert t. induction s as [|a s IHs]; intros t.
  - now rewrite levenshtein_nil_l, levenshtein_nil_r.
  - induction t as [|b t IHt].
    + now rewrite levenshtein_nil_l, levenshtein_nil_r.
    + rewrite !levenshtein_cons, (Ascii.eqb_sym b a).
      destruct (Ascii.eqb a b); [apply IHs|].
      rewrite (IHs (String b t)), IHt, (IHs t). lia.
Qed.

Lemma levenshtein_upper (s t : string) :
  (levenshtein s t ≤ Nat.max (String.length s) (String.length t))%nat.
Proof.
  revert t. induction s as [|a s IHs]; intros t.
  - rewrite levenshtein_nil_l. simpl. lia.
  - destruct t as [|b t].
    + rewrite levenshtein_nil_r. simpl. lia.
    + rewrite levenshtein_cons. specialize (IHs t). simpl.
      destruct (Ascii.eqb a b); lia.
Qed.

Lemma levenshtein_lower (s t : string) :
  (String.length s ≤ String.length t + levenshtein s t)%nat ∧
  (String.length t ≤ String.length s + levenshtein s t)%nat.
Proof.
  revert t. induction s as [|a s IHs]; intros t.
  - rewrite levenshtein_nil_l. simpl. lia.
  - induction t as [|b t IHt].
    + rewrite levenshtein_nil_r. simpl. lia.
    + rewrite levenshtein_cons.
      pose proof (IHs t) as H1. pose proof (IHs (String b t)) as H2.
      simpl in *. destruct (Ascii.eqb a b); lia.
Qed.

(** X1: a name is similar to itself, and similarity does not depend on the
    order of the two names. *)
Theorem is_name_similar_refl_sym (name1 name2 : string) :
  is_name_similar name1 name1 = true ∧
  is_name_similar name1 name2 = is_name_similar name2 name1.
Proof.
  unfold is_name_similar. split.
  - now rewrite levenshtein_refl.
  - now rewrite (levenshtein_sym name1 name2).
Qed.

(** X2: two names that are both shorter than [MAX_EDITS] characters are
    similar, whatever their characters. *)
Theorem short_names_are_similar (name1 name2 : string) :
  (String.length name1 < MAX_EDITS)%nat →
  (String.length name2 < MAX_EDITS)%nat →
  is_name_similar name1 name2 = true.
Proof.
  intros H1 H2. unfold is_name_similar. apply Nat.ltb_lt.
  pose proof (levenshtein_upper name1 name2). lia.
Qed.

(** X3: two names whose lengths differ by [MAX_EDITS] or more are not
    similar. *)
Theorem length_gap_not_similar (name1 name2 : string) :
  (String.length name1 + MAX_EDITS ≤ String.length name2)%nat
  ∨ (String.length name2 + MAX_EDITS ≤ String.length name1)%nat →
  is_name_similar name1 name2 = false.
Proof.
  intros Hgap. unfold is_name_similar. apply Nat.ltb_ge.
  pose proof (levenshtein_lower name1 name2). lia.
Qed.

(** ** Tasks decided on a fixed dataset *)

Lemma lookup_payload (base acc : list entry) (k : nat) (e : entry) :
  payload <$> acc = payload <$> base → base !! k = Some e →
  ∃ e', acc !! k = Some e' ∧ payload e' = payload e.
Proof.
  intros Hpay Hk.
  assert ((payload <$> acc) !! k = Some (payload e)) as H.
  { rewrite Hpay, list_lookup_fmap, Hk. reflexivity. }
  rewrite list_lookup_fmap in H.
  destruct (acc !! k) as [e'|]; [|discriminate].
  exists e'. split; [reflexivity|]. simpl in H. congruence.
Qed.

Lemma lookup_payload_None (base acc : list entry) (k : nat) :
  payload <$> acc = payload <$> base → base !! k = None → acc !! k = None.
Proof.
  intros Hpay Hk. apply lookup_ge_None. apply lookup_ge_None in Hk.
  apply (f_equal length) in Hpay. rewrite !length_fmap in Hpay. lia.
Qed.

Lemma process_entries_apply_task (base acc : list entry) (t : nat * nat) :
  payload <$> acc = payload <$> base →
  process_entries t.1 t.2 acc = apply_task base acc t.
Proof.
  intros Hpay. unfold apply_task.
  destruct (base !! t.1) as [e1|] eqn:H1.
  - destruct (lookup_payload _ _ _ _ Hpay H1) as (a1 & Ha1 & Hp1).
    destruct (base !! t.2) as [e2|] eqn:H2.
    + destruct (lookup_payload _ _ _ _ Hpay H2) as (a2 & Ha2 & Hp2).
      rewrite (process_entries_eq _ _ _ _ _ Ha1 Ha2).
      now rewrite (pair_matches_payload e1 a1 e2 a2 Hp1 Hp2).
    + pose proof (lookup_payload_None _ _ _ Hpay H2) as Ha2.
      unfold process_entries, getitem. now rewrite Ha1, Ha2.
  - pose proof (lookup_payload_None _ _ _ Hpay H1) as Ha1.
    unfold process_entries, getitem. now rewrite Ha1.
Qed.

Lemma apply_task_payload (base acc acc' : list entry) (t : nat * nat) :
  apply_task base acc t = Ok acc' → payload <$> acc' = payload <$> acc.
Proof.
  unfold apply_task. destruct (base !! t.1); [|discriminate].
  destruct (base !! t.2); [|discriminate]. intros [= <-].
  destruct (pair_matches _ _); [|reflexivity]. now rewrite !payload_mark.
Qed.

Lemma gather_apply_task (base : list entry) (ts : list (nat * nat)) :
  ∀ acc, payload <$> acc = payload <$> base →
  for_each ts (fun es t => process_entries t.1 t.2 es) acc
  = for_each ts (apply_task base) acc.
Proof.
  induction ts as [|t ts IH]; intros acc Hpay; simpl; [reflexivity|].
  rewrite (process_entries_apply_task base acc t Hpay).
  destruct (apply_task base acc t) as [acc'|] eqn:Hstep; simpl; [|reflexivity].
  apply IH. rewrite <- Hpay. eapply apply_task_payload; eauto.
Qed.




(** X5: when the distance between two records does not depend on their
    order, evaluating the pair [(j, i)] has the effect of evaluating
    [(i, j)]. *)
Theorem process_entries_swap (entries : list entry) (i j : nat)
    (entry1 entry2 : entry) :
  entries !! i = Some entry1 → entries !! j = Some entry2 →
  great_circle (coord entry2) (coord entry1)
  = great_circle (coord entry1) (coord entry2) →
  process_entries j i entries = process_entries i j entries.
Proof.
  intros Hi Hj Hsym.
  rewrite (process_entries_eq _ _ _ _ _ Hj Hi), (process_entries_eq _ _ _ _ _ Hi Hj).
  unfold pair_matches, stage1_passes, distance_between_coordinates,
    is_name_similar.
  rewrite Hsym, (levenshtein_sym (name entry2) (name entry1)).
  now rewrite (mark_comm _ i j).
Qed.

(** ** A closed form for a batch *)

Lemma lookup_mark_pair (acc : list entry) (i j k : nat) :
  mark j (mark i acc) !! k
  = (fun e => if Nat.eqb i k || Nat.eqb j k then set_is_similar 1 e else e)
      <$> acc !! k.
Proof.
  destruct (Nat.eqb_spec j k) as [->|Hj].
  - rewrite lookup_mark_eq, orb_true_r.
    destruct (Nat.eqb_spec i k) as [->|Hi].
    + rewrite lookup_mark_eq. now destruct (acc !! k).
    + rewrite lookup_mark_ne by assumption. reflexivity.
  - rewrite lookup_mark_ne, orb_false_r by assumption.
    destruct (Nat.eqb_spec i k) as [->|Hi].
    + now rewrite lookup_mark_eq.
    + rewrite lookup_mark_ne by assumption. now destruct (acc !! k).
Qed.

Lemma lookup_flag_hits (base acc : list entry) (ts : list (nat * nat))
    (k : nat) :
  flag_hits base ts acc !! k
  = (fun e => if hit base ts k then set_is_similar 1 e else e) <$> acc !! k.
Proof. unfold flag_hits. apply list_lookup_imap. Qed.

Lemma for_each_apply_task_hits (base : list entry) (ts : list (nat * nat)) :
  ∀ acc acc', for_each ts (apply_task base) acc = Ok acc' →
              acc' = flag_hits base ts acc.
Proof.
  induction ts as [|t ts IH]; intros acc acc'; simpl.
  - intros [= <-]. apply list_eq. intros k. rewrite lookup_flag_hits.
    simpl. now destruct (acc !! k).
  - destruct (apply_task base acc t) as [acc1|] eqn:Hstep; simpl;
      [|discriminate].
    intros Hrest. rewrite (IH _ _ Hrest). clear IH Hrest.
    unfold apply_task in Hstep. apply list_eq. intros k.
    rewrite !lookup_flag_hits. simpl. unfold task_matches.
    destruct (base !! t.1) as [e1|]; [|discriminate].
    destruct (base !! t.2) as [e2|]; [|discriminate].
    injection Hstep as <-. destruct (pair_matches e1 e2).
    + rewrite lookup_mark_pair, andb_true_r.
      destruct (acc !! k) as [e|]; [|reflexivity]. simpl.
      now destruct (Nat.eqb t.1 k || Nat.eqb t.2 k), (hit base ts k).
    + now rewrite andb_false_r.
Qed.

Lemma gather_flag_hits (ts : list (nat * nat)) (entries entries' : list entry) :
  gather ts entries = Ok entries' → entries' = flag_hits entries ts entries.
Proof.
  unfold gather. rewrite (gather_apply_task entries _ entries eq_refl).
  apply for_each_apply_task_hits.
Qed.

Lemma hit_true (base : list entry) (ts : list (nat * nat)) (k : nat) :
  hit base ts k = true ↔
  ∃ t, t ∈ ts ∧ (t.1 = k ∨ t.2 = k) ∧ task_matches base t = true.
Proof.
  unfold hit. rewrite existsb_exists. split.
  - intros (t & Hin & Ht). apply andb_true_iff in Ht as [Hk Hm].
    apply orb_true_iff in Hk. rewrite !Nat.eqb_eq in Hk.
    exists t. split; [now apply list_elem_of_In | now split].
  - intros (t & Hin & Hk & Hm). exists t.
    split; [now apply list_elem_of_In|].
    apply andb_true_iff. split; [|assumption].
    apply orb_true_iff. now rewrite !Nat.eqb_eq.
Qed.

(** ** Growth of the flags *)

Lemma grows_refl (entries : list entry) : grows entries entries.
Proof.
  split; [reflexivity|]. intros k e e' H H'.
  assert (e' = e) as -> by congruence. split; [reflexivity | now left].
Qed.

Lemma grows_trans (es1 es2 es3 : list entry) :
  grows es1 es2 → grows es2 es3 → grows es1 es3.
Proof.
  intros [Hl12 H12] [Hl23 H23]. split; [congruence|].
  intros k e1 e3 H1 H3.
  destruct (lookup_lt_is_Some_2 es2 k) as [e2 H2].
  { rewrite Hl12. eapply lookup_lt_Some; eauto. }
  destruct (H12 k e1 e2 H1 H2) as [Hp12 Hf12].
  destruct (H23 k e2 e3 H2 H3) as [Hp23 Hf23].
  split; [congruence|]. destruct Hf23 as [Hf23|Hf23]; [|now right].
  rewrite Hf23. exact Hf12.
Qed.

Lemma gather_grows (ts : list (nat * nat)) (entries entries' : list entry) :
  gather ts entries = Ok entries' → grows entries entries'.
Proof.
  intros Hrun. rewrite (gather_flag_hits _ _ _ Hrun).
  split; [apply length_imap|]. intros k e e' Hk.
  rewrite lookup_flag_hits, Hk. simpl. intros [= <-].
  destruct (hit entries ts k); split; try reflexivity; [now right | now left].
Qed.

Lemma advances_refl (st : sched) : advances st st.
Proof. exists []. split; [now rewrite app_nil_r | reflexivity]. Qed.

Lemma advances_trans (st1 st2 st3 : sched) :
  advances st1 st2 → advances st2 st3 → advances st1 st3.
Proof.
  intros (n12 & Hr12 & Hg12) (n23 & Hr23 & Hg23). exists (n12 ++ n23).
  split; [now rewrite Hr23, Hr12, app_assoc|].
  now rewrite gather_app, Hg12.
Qed.

Lemma advances_grows (st st' : sched) :
  advances st st' → grows (s_entries st) (s_entries st').
Proof. intros (new & _ & Hrun). eapply gather_grows; eauto. Qed.

Lemma inner_step_advances (chunks : Z) (i j : nat) (st st' : sched) :
  inner_step chunks i st j = Ok st' → advances st st'.
Proof.
  unfold inner_step. destruct (counter st + 1 =? chunks)%Z.
  - destruct (gather _ (s_entries st)) as [es'|] eqn:Hrun; simpl;
      [|discriminate].
    intros [= <-]. exists (tasks st ++ [(i, j)]). now split.
  - intros [= <-]. exists []. simpl. split; [now rewrite app_nil_r | reflexivity].
Qed.

Lemma for_each_advances {X : Type} (body : sched → X → result sched)
    (xs : list X) :
  (∀ s x s', body s x = Ok s' → advances s s') →
  ∀ st st', for_each xs body st = Ok st' → advances st st'.
Proof.
  intros Hbody. induction xs as [|x xs IH]; intros st st'; simpl.
  - intros [= <-]. apply advances_refl.
  - destruct (body st x) as [st1|] eqn:Hstep; simpl; [|discriminate].
    intros Hrest. eapply advances_trans; eauto.
Qed.

Lemma outer_step_advances (chunks : Z) (n i : nat) (st st' : sched) :
  outer_step chunks n st i = Ok st' → advances st st'.
Proof.
  unfold outer_step. destruct (getitem (s_entries st) i) as [e|]; simpl;
    [|discriminate].
  destruct (is_similar e =? 1)%Z.
  - intros [= <-]. apply advances_refl.
  - apply for_each_advances. intros s x s'. apply inner_step_advances.
Qed.

Lemma flush_advances (st st' : sched) : flush st = Ok st' → advances st st'.
Proof.
  unfold flush. destruct (counter st =? 0)%Z; simpl.
  - intros [= <-]. apply advances_refl.
  - destruct (gather (tasks st) (s_entries st)) as [es'|] eqn:Hrun; simpl;
      [|discriminate].
    intros [= <-]. exists (tasks st). now split.
Qed.

Lemma grows_flag_back (es es' : list entry) (k : nat) (e e' : entry) :
  grows es es' → es !! k = Some e → es' !! k = Some e' →
  is_similar e' ≠ 1%Z → is_similar e ≠ 1%Z.
Proof.
  intros [_ Hg] Hk Hk' Hne. destruct (Hg k e e' Hk Hk') as [_ [H|H]]; congruence.
Qed.

Lemma grows_lookup (es es' : list entry) (k : nat) (e : entry) :
  grows es es' → es !! k = Some e →
  ∃ e', es' !! k = Some e' ∧ payload e' = payload e ∧
        (is_similar e = 1%Z → is_similar e' = 1%Z).
Proof.
  intros [Hlen Hg] Hk.
  destruct (lookup_lt_is_Some_2 es' k) as [e' Hk'].
  { rewrite Hlen. eapply lookup_lt_Some; eauto. }
  exists e'. split; [assumption|].
  destruct (Hg k e e' Hk Hk') as [Hp [H|H]]; split; congruence.
Qed.

(** ** Which rows are enumerated *)

Lemma sublist_bind {A B : Type} (f : A → list B) (l1 l2 : list A) :
  l1 `sublist_of` l2 → (l1 ≫= f) `sublist_of` (l2 ≫= f).
Proof.
  induction 1 as [|x l1 l2 _ IH|x l1 l2 _ IH].
  - constructor.
  - rewrite !bind_cons. now apply sublist_app.
  - rewrite bind_cons. now apply sublist_inserts_l.
Qed.

Lemma outer_loop_sel (entries0 : list entry) (chunks : Z) (rows : list nat) :
  Forall (fun i => i < length entries0) rows →
  ∀ st, sched_inv entries0 st →
  ∃ st' sel,
    for_each rows (outer_step chunks (length entries0)) st = Ok st' ∧
    sched_inv entries0 st' ∧
    enqueued st' = enqueued st ++ (sel ≫= row_pairs (length entries0)) ∧
    sel `sublist_of` rows ∧
    (∀ i e, i ∈ sel → s_entries st !! i = Some e → is_similar e ≠ 1%Z) ∧
    (∀ i e, i ∈ rows → i ∉ sel → s_entries st' !! i = Some e →
            is_similar e = 1%Z).
Proof.
  induction 1 as [|i rows Hi _ IH]; intros st Hinv.
  - exists st, []. simpl. rewrite app_nil_r.
    repeat (split; [auto; constructor|]). split.
    + intros i e Hin. now apply elem_of_nil in Hin.
    + intros i e Hin. now apply elem_of_nil in Hin.
  - destruct (outer_step_inv _ chunks i st Hinv Hi)
      as (e & st1 & He & Hstep & Hinv1 & Hq1).
    destruct (IH st1 Hinv1) as (st2 & sel & Hrest & Hinv2 & Hq2 & Hsub & Hin & Hout).
    pose proof (advances_grows _ _ (outer_step_advances _ _ _ _ _ Hstep)) as Hg1.
    assert (advances st1 st2) as Hadv2.
    { eapply for_each_advances; [|exact Hrest].
      intros s x s'. apply outer_step_advances. }
    pose proof (advances_grows _ _ Hadv2) as Hg2.
    exists st2. simpl. rewrite Hstep. simpl.
    destruct (Z.eqb_spec (is_similar e) 1) as [Hflag|Hflag].
    + exists sel. split; [assumption|]. split; [assumption|].
      split; [now rewrite Hq2, Hq1, app_nil_r|].
      split; [now apply sublist_cons|]. split.
      * intros k a Hk Ha.
        destruct (grows_lookup _ _ _ _ Hg1 Ha) as (a1 & Ha1 & _ & _).
        apply (grows_flag_back _ _ k a a1 Hg1 Ha Ha1), (Hin k a1 Hk Ha1).
      * intros k a Hk Hnot Ha. apply elem_of_cons in Hk as [->|Hk]; [|eauto].
        destruct (grows_lookup _ _ _ _ (grows_trans _ _ _ Hg1 Hg2) He)
          as (a' & Ha' & _ & Hone).
        assert (a' = a) as -> by congruence. auto.
    + exists (i :: sel). split; [assumption|]. split; [assumption|].
      split; [rewrite Hq2, Hq1, bind_cons; now rewrite <- app_assoc|].
      split; [now apply sublist_skip|]. split.
      * intros k a Hk Ha. apply elem_of_cons in Hk as [->|Hk].
        -- congruence.
        -- destruct (grows_lookup _ _ _ _ Hg1 Ha) as (a1 & Ha1 & _ & _).
           apply (grows_flag_back _ _ k a a1 Hg1 Ha Ha1), (Hin k a1 Hk Ha1).
      * intros k a Hk Hnot Ha. apply elem_of_cons in Hk as [->|Hk].
        -- exfalso. apply Hnot. left.
        -- eapply Hout; eauto. intros Hsel. apply Hnot. now right.
Qed.

Lemma run_scheduler_sel (chunks : Z) (entries : list entry) :
  ∃ final sel,
    run_scheduler chunks entries = Ok final ∧
    evolves entries (s_entries final) ∧
    gather (ran final) entries = Ok (s_entries final) ∧
    ran final = sel ≫= row_pairs (length entries) ∧
    sel `sublist_of` seq 0 (length entries) ∧
    (∀ i e, i ∈ sel → entries !! i = Some e → is_similar e ≠ 1%Z) ∧
    (∀ i e, i < length entries → i ∉ sel → s_entries final !! i = Some e →
            is_similar e = 1%Z).
Proof.
  destruct (outer_loop_sel entries chunks _ (seq_bounded _) _
              (sched_inv_initial entries))
    as (st & sel & Hloop & Hinv & Hq & Hsub & Hin & Hout).
  destruct (flush_inv _ _ Hinv) as (final & Hflush & Hev & Hran & Hgather).
  pose proof (advances_grows _ _ (flush_advances _ _ Hflush)) as Hg.
  exists final, sel. unfold run_scheduler, enumerate. rewrite Hloop. simpl.
  split; [assumption|]. split; [assumption|]. split; [assumption|].
  split; [now rewrite Hran, Hq|]. split; [assumption|]. split; [exact Hin|].
  intros i e Hi Hnot He.
  destruct (lookup_lt_is_Some_2 (s_entries st) i) as [a Ha].
  { destruct Hinv as [[Hlen _] _]. lia. }
  destruct (grows_lookup _ _ _ _ Hg Ha) as (e' & He' & _ & Hone).
  assert (e' = e) as -> by congruence. apply Hone.
  apply (Hout i a); [apply elem_of_seq; lia | assumption | assumption].
Qed.

(** ** The candidate pairs *)

Lemma elem_of_row_pairs (n i : nat) (t : nat * nat) :
  t ∈ row_pairs n i ↔ t.1 = i ∧ i < t.2 < n.
Proof.
  unfold row_pairs. rewrite list_elem_of_fmap. split.
  - intros (j & -> & Hj). apply elem_of_seq in Hj. simpl. lia.
  - intros [<- Hj]. exists t.2. split; [now destruct t|].
    apply elem_of_seq. lia.
Qed.

Lemma elem_of_all_pairs (n : nat) (t : nat * nat) :
  t ∈ all_pairs n ↔ t.1 < t.2 < n.
Proof.
  unfold all_pairs. rewrite list_elem_of_bind. split.
  - intros (i & Ht & Hi). apply elem_of_row_pairs in Ht. lia.
  - intros Ht. exists t.1. split; [now apply elem_of_row_pairs|].
    apply elem_of_seq. lia.
Qed.

Lemma NoDup_all_pairs (n : nat) : NoDup (all_pairs n).
Proof.
  apply NoDup_bind; [| |apply NoDup_seq].
  - intros i1 i2 t _ _ H1 H2.
    apply elem_of_row_pairs in H1, H2. lia.
  - intros i _. unfold row_pairs. apply NoDup_fmap_2; [|apply NoDup_seq].
    intros j1 j2. congruence.
Qed.

Lemma length_rows_from (n a m : nat) :
  a + m = n → 2 * length (seq a m ≫= row_pairs n) = m * (m - 1).
Proof.
  revert a. induction m as [|m IH]; intros a Ham; [reflexivity|].
  simpl seq. rewrite bind_cons, length_app. unfold row_pairs at 1.
  rewrite length_fmap, length_seq.
  specialize (IH (S a) ltac:(lia)). nia.
Qed.

Lemma length_all_pairs (n : nat) : 2 * length (all_pairs n) = n * (n - 1).
Proof. apply length_rows_from. reflexivity. Qed.

(** X6: on a pass that returns, the evaluated tasks are a subsequence of
    the candidate pairs in row-major order: only pairs [(i, j)] with
    [i < j < n], none of them twice, hence at most [n (n - 1) / 2] of
    them. *)
Theorem evaluated_pairs_are_candidates (chunks : Z) (entries : list entry)
    (final : sched) :
  run_scheduler chunks entries = Ok final →
  ran final `sublist_of` all_pairs (length entries) ∧
  NoDup (ran final) ∧
  (∀ i j, (i, j) ∈ ran final → i < j < length entries) ∧
  (2 * length (ran final) ≤ length entries * (length entries - 1))%nat.
Proof.
  intros Hfinal.
  destruct (run_scheduler_sel chunks entries)
    as (final' & sel & Hrun & _ & _ & Hran & Hsub & _ & _).
  assert (final' = final) as -> by congruence.
  assert (ran final `sublist_of` all_pairs (length entries)) as Hall.
  { rewrite Hran. now apply sublist_bind. }
  split; [assumption|]. split; [|split].
  - eapply sublist_NoDup; [apply NoDup_all_pairs | exact Hall].
  - intros i j Hin.
    apply (elem_of_all_pairs (length entries) (i, j)).
    eapply elem_of_sublist; eauto.
  - rewrite <- length_all_pairs. apply sublist_length in Hall. lia.
Qed.

(** ** Which records end flagged *)

Lemma task_matches_pair (base : list entry) (i j : nat) (e1 e2 : entry) :
  base !! i = Some e1 → base !! j = Some e2 →
  task_matches base (i, j) = pair_matches e1 e2.
Proof. unfold task_matches. simpl. now intros -> ->. Qed.

Lemma gather_hit_flagged (ts : list (nat * nat)) (entries entries' : list entry)
    (k : nat) (e : entry) :
  gather ts entries = Ok entries' → entries !! k = Some e →
  hit entries ts k = true →
  entries' !! k = Some (set_is_similar 1 e).
Proof.
  intros Hrun Hk Hhit. rewrite (gather_flag_hits _ _ _ Hrun).
  now rewrite lookup_flag_hits, Hk, Hhit.
Qed.

(** X7: of two matching records [i < j] the one at the lower index always
    ends flagged, for every batch size and whatever the flags at the start;
    the one at the higher index ends flagged whenever the pair is among the
    evaluated ones. *)
Theorem matching_pair_flags (chunks : Z) (entries : list entry) :
  ∃ final, run_scheduler chunks entries = Ok final ∧
    ∀ i j e1 e2, i < j → entries !! i = Some e1 → entries !! j = Some e2 →
      pair_matches e1 e2 = true →
      (∃ e, s_entries final !! i = Some e ∧ is_similar e = 1%Z) ∧
      ((i, j) ∈ ran final →
       ∃ e, s_entries final !! j = Some e ∧ is_similar e = 1%Z).
Proof.
  destruct (run_scheduler_sel chunks entries)
    as (final & sel & Hrun & [Hlen _] & Hgather & Hran & _ & _ & Hout).
  exists final. split; [assumption|].
  intros i j e1 e2 Hij Hi Hj Hm.
  assert (j < length entries) as Hjn by (eapply lookup_lt_Some; eauto).
  assert ((i, j) ∈ ran final → ∀ k e, (k = i ∨ k = j) →
            entries !! k = Some e →
            ∃ e', s_entries final !! k = Some e' ∧ is_similar e' = 1%Z)
    as Hdone.
  { intros Hin k e Hk He. exists (set_is_similar 1 e).
    split; [|reflexivity].
    apply (gather_hit_flagged _ _ _ _ _ Hgather He).
    apply hit_true. exists (i, j). split; [assumption|].
    split; [simpl; intuition congruence|].
    now rewrite (task_matches_pair _ _ _ _ _ Hi Hj). }
  split; [|intros Hin; apply (Hdone Hin j e2); auto].
  destruct (decide (i ∈ sel)) as [Hsel|Hsel].
  - apply (Hdone ltac:(rewrite Hran; apply list_elem_of_bind; exists i;
      split; [apply elem_of_row_pairs; simpl; lia | assumption]) i e1); auto.
  - destruct (lookup_lt_is_Some_2 (s_entries final) i) as [e He]; [lia|].
    exists e. split; [assumption|]. apply (Hout i e); [lia | assumption..].
Qed.

(** ** Datasets smaller than a batch *)

Lemma inner_loop_deferred (chunks : Z) (i : nat) (js : list nat) :
  ∀ st, counter st = Z.of_nat (length (tasks st)) →
  (Z.of_nat (length (tasks st) + length js) < chunks)%Z →
  ∃ st', for_each js (inner_step chunks i) st = Ok st' ∧
    s_entries st' = s_entries st ∧
    tasks st' = tasks st ++ (pair i <$> js) ∧
    counter st' = Z.of_nat (length (tasks st')) ∧
    ran st' = ran st.
Proof.
  induction js as [|j js IH]; intros st Hcnt Hroom.
  - exists st. simpl. now rewrite app_nil_r.
  - simpl in Hroom. simpl for_each. unfold inner_step at 1.
    destruct (Z.eqb_spec (counter st + 1) chunks) as [Heq|_]; [lia|].
    simpl.
    destruct (IH {| s_entries := s_entries st; tasks := tasks st ++ [(i, j)];
                    counter := (counter st + 1)%Z; ran := ran st |})
      as (st' & Hrun & Hes & Hts & Hc & Hr).
    + simpl. rewrite length_app. simpl. lia.
    + simpl. rewrite length_app. simpl. lia.
    + exists st'. simpl in Hes, Hts, Hr. split; [exact Hrun|].
      split; [exact Hes|].
      split; [rewrite Hts, <- app_assoc; reflexivity|].
      split; [exact Hc | exact Hr].
Qed.

Lemma outer_loop_deferred (chunks : Z) (n : nat) (rows : list nat) :
  ∀ st,
  (∀ i, i ∈ rows → ∃ e, s_entries st !! i = Some e ∧ is_similar e ≠ 1%Z) →
  counter st = Z.of_nat (length (tasks st)) →
  (Z.of_nat (length (tasks st) + length (rows ≫= row_pairs n)) < chunks)%Z →
  ∃ st', for_each rows (outer_step chunks n) st = Ok st' ∧
    s_entries st' = s_entries st ∧
    tasks st' = tasks st ++ (rows ≫= row_pairs n) ∧
    counter st' = Z.of_nat (length (tasks st')) ∧
    ran st' = ran st.
Proof.
  induction rows as [|i rows IH]; intros st Hclear Hcnt Hroom.
  - exists st. simpl. now rewrite app_nil_r.
  - rewrite bind_cons, length_app in Hroom.
    destruct (Hclear i ltac:(left)) as (e & He & Hflag).
    destruct (inner_loop_deferred chunks i (seq (i + 1) (n - (i + 1))) st Hcnt)
      as (st1 & Hrow & Hes1 & Hts1 & Hc1 & Hr1).
    { unfold row_pairs in Hroom. rewrite length_fmap in Hroom. lia. }
    destruct (IH st1) as (st2 & Hrest & Hes2 & Hts2 & Hc2 & Hr2).
    + intros k Hk. rewrite Hes1. apply Hclear. now right.
    + assumption.
    + rewrite Hts1, length_app. fold (row_pairs n i). lia.
    + assert (for_each (i :: rows) (outer_step chunks n) st = Ok st2) as Hall.
      { simpl. unfold outer_step at 1. rewrite (getitem_Ok _ _ _ He). simpl.
        destruct (Z.eqb_spec (is_similar e) 1) as [|_]; [contradiction|].
        rewrite Hrow. simpl. exact Hrest. }
      exists st2. split; [exact Hall|]. split; [congruence|].
      split; [rewrite Hts2, Hts1, bind_cons, <- app_assoc; reflexivity|].
      split; [assumption | congruence].
Qed.

Lemma run_scheduler_deferred (chunks : Z) (entries : list entry) :
  (∀ e, e ∈ entries → is_similar e ≠ 1%Z) →
  (Z.of_nat (length entries * (length entries - 1)) < 2 * chunks)%Z →
  ∃ final, run_scheduler chunks entries = Ok final ∧
    ran final = all_pairs (length entries) ∧
    gather (all_pairs (length entries)) entries = Ok (s_entries final) ∧
    evolves entries (s_entries final).
Proof.
  intros Hclear Hroom.
  destruct (run_scheduler_evolves chunks entries) as (final & Hrun & Hev & Hgather).
  destruct (outer_loop_deferred chunks (length entries)
              (seq 0 (length entries)) (initial entries))
    as (st & Hloop & Hes & Hts & Hc & Hr).
  { intros i Hi. apply elem_of_seq in Hi.
    destruct (lookup_lt_is_Some_2 entries i) as [e He]; [lia|].
    exists e. split; [assumption|]. apply Hclear.
    apply list_elem_of_lookup. eauto. }
  { reflexivity. }
  { simpl. fold (all_pairs (length entries)).
    pose proof (length_all_pairs (length entries)). lia. }
  exists final. split; [assumption|].
  assert (ran final = all_pairs (length entries)) as Hran.
  { unfold run_scheduler, enumerate in Hrun. rewrite Hloop in Hrun.
    simpl in Hrun, Hts, Hr. unfold flush in Hrun.
    fold (all_pairs (length entries)) in Hts.
    destruct (Z.eqb_spec (counter st) 0) as [Hzero|_]; simpl in Hrun.
    - injection Hrun as <-. rewrite Hr, <- Hts.
      destruct (tasks st); [reflexivity | simpl in Hc; lia].
    - destruct (gather (tasks st) (s_entries st)); simpl in Hrun;
        [|discriminate].
      injection Hrun as <-. simpl. now rewrite Hr, Hts. }
  split; [assumption|]. split; [now rewrite <- Hran | assumption].
Qed.

(** X8: when no record is flagged at the start and the dataset has fewer
    candidate pairs than the batch size, no row is pruned: all
    [n (n - 1) / 2] pairs are evaluated, in row-major order.  With [CHUNKS]
    this is every dataset of at most 447 records. *)
Theorem small_dataset_all_pairs (chunks : Z) (entries : list entry) :
  (∀ e, e ∈ entries → is_similar e ≠ 1%Z) →
  (Z.of_nat (length entries * (length entries - 1)) < 2 * chunks)%Z →
  ∃ final, run_scheduler chunks entries = Ok final ∧
    ran final = all_pairs (length entries) ∧
    2 * length (ran final) = length entries * (length entries - 1).
Proof.
  intros Hclear Hroom.
  destruct (run_scheduler_deferred chunks entries Hclear Hroom)
    as (final & Hrun & Hran & _).
  exists final. split; [assumption|]. split; [assumption|].
  rewrite Hran. apply length_all_pairs.
Qed.

(** X9: under the same conditions the flags are exact: a record ends with
    flag 1 if and only if some other record of the dataset matches it. *)
Theorem small_dataset_flags_exact (chunks : Z) (entries : list entry) :
  (∀ e, e ∈ entries → is_similar e ≠ 1%Z) →
  (Z.of_nat (length entries * (length entries - 1)) < 2 * chunks)%Z →
  ∃ final, run_scheduler chunks entries = Ok final ∧
    ∀ k e, s_entries final !! k = Some e →
      (is_similar e = 1%Z ↔
       has_partner (fun a b => pair_matches a b = true) entries k).
Proof.
  intros Hclear Hroom.
  destruct (run_scheduler_deferred chunks entries Hclear Hroom)
    as (final & Hrun & _ & Hgather & [Hlen Hrec]).
  exists final. split; [assumption|]. intros k e Hk.
  destruct (lookup_lt_is_Some_2 entries k) as [e0 Hk0].
  { rewrite <- Hlen. eapply lookup_lt_Some; eauto. }
  split.
  - intros Hone. destruct (Hrec k e0 e Hk0 Hk) as [_ [Hsame|[_ Hp]]];
      [|assumption].
    exfalso. apply (Hclear e0); [|congruence].
    apply list_elem_of_lookup. eauto.
  - intros (k' & a & a' & Ha & Ha' & Hcase).
    assert (a = e0) as -> by congruence.
    assert (k' < length entries) as Hk'n by (eapply lookup_lt_Some; eauto).
    assert (k < length entries) as Hkn by (eapply lookup_lt_Some; eauto).
    assert (hit entries (all_pairs (length entries)) k = true) as Hhit.
    { apply hit_true. destruct Hcase as [[Hlt Hm]|[Hlt Hm]].
      - exists (k, k'). split; [apply elem_of_all_pairs; simpl; lia|].
        split; [now left|]. now rewrite (task_matches_pair _ _ _ _ _ Ha Ha').
      - exists (k', k). split; [apply elem_of_all_pairs; simpl; lia|].
        split; [now right|]. now rewrite (task_matches_pair _ _ _ _ _ Ha' Ha). }
    pose proof (gather_hit_flagged _ _ _ _ _ Hgather Hk0 Hhit) as Hk2.
    assert (e = set_is_similar 1 e0) as -> by congruence. reflexivity.
Qed.

(** ** A second pass *)

Lemma run_scheduler_twice (chunks chunks' : Z) (entries : list entry) :
  ∃ final final',
    run_scheduler chunks entries = Ok final ∧
    run_scheduler chunks' (s_entries final) = Ok final' ∧
    s_entries final' = s_entries final.
Proof.
  destruct (run_scheduler_sel chunks entries)
    as (final & sel & Hrun & [Hlen Hrec] & Hgather & Hran & _ & _ & Hout).
  destruct (run_scheduler_sel chunks' (s_entries final))
    as (final' & sel' & Hrun' & _ & Hgather' & Hran' & _ & Hin' & _).
  exists final, final'. split; [assumption|]. split; [assumption|].
  rewrite (gather_flag_hits _ _ _ Hgather').
  apply list_eq. intros k. rewrite lookup_flag_hits.
  destruct (hit (s_entries final) (ran final') k) eqn:Hhit;
    [|now destruct (s_entries final !! k)].
  exfalso. apply hit_true in Hhit as ([i j] & Ht & _ & Hm).
  rewrite Hran' in Ht. apply list_elem_of_bind in Ht as (i' & Ht & Hsel').
  apply elem_of_row_pairs in Ht as [Heq Hj]. simpl in Heq, Hj. subst i'.
  unfold task_matches in Hm. simpl in Hm.
  destruct (s_entries final !! i) as [a1|] eqn:Ha1; [|discriminate].
  destruct (s_entries final !! j) as [a2|] eqn:Ha2; [|discriminate].
  pose proof (Hin' i a1 Hsel' Ha1) as Hclear.
  rewrite Hlen in Hj.
  destruct (lookup_lt_is_Some_2 entries i) as [b1 Hb1]; [lia|].
  destruct (lookup_lt_is_Some_2 entries j) as [b2 Hb2]; [lia|].
  destruct (Hrec i b1 a1 Hb1 Ha1) as [Hp1 _].
  destruct (Hrec j b2 a2 Hb2 Ha2) as [Hp2 _].
  destruct (decide (i ∈ sel)) as [Hsel|Hsel].
  - assert (hit entries (ran final) i = true) as Hhit.
    { apply hit_true. exists (i, j). split; [|split; [now left|]].
      - rewrite Hran. apply list_elem_of_bind. exists i.
        split; [apply elem_of_row_pairs; simpl; lia | assumption].
      - rewrite (task_matches_pair _ _ _ _ _ Hb1 Hb2).
        now rewrite <- (pair_matches_payload b1 a1 b2 a2 Hp1 Hp2). }
    pose proof (gather_hit_flagged _ _ _ _ _ Hgather Hb1 Hhit) as Hflagged.
    apply Hclear. assert (a1 = set_is_similar 1 b1) as -> by congruence.
    reflexivity.
  - apply Hclear, (Hout i a1); [lia | assumption..].
Qed.

(** X10: the matching pass is idempotent: run again on its own result, it
    returns that result unchanged. *)
Theorem find_similar_entries_idempotent (entries : list entry) :
  ∃ final, find_similar_entries entries = Ok final ∧
           find_similar_entries final = Ok final.
Proof.
  destruct (run_scheduler_twice CHUNKS CHUNKS entries)
    as (final & final' & Hrun & Hrun' & Hsame).
  exists (s_entries final). unfold find_similar_entries.
  rewrite Hrun. simpl. rewrite Hrun'. simpl. now rewrite Hsame.
Qed.

(** ** Bounds *)

(** X12: a dataset with fewer than two records has no pair: the pass
    returns it unchanged and evaluates nothing. *)
Theorem tiny_dataset_unchanged (chunks : Z) (entries : list entry) :
  (length entries ≤ 1)%nat →
  ∃ final, run_scheduler chunks entries = Ok final ∧ ran final = [] ∧
           s_entries final = entries ∧
           find_similar_entries entries = Ok entries.
Proof.
  intros Hlen.
  assert (∀ c, ∃ final, run_scheduler c entries = Ok final ∧ ran final = [] ∧
                        s_entries final = entries) as Hrun.
  { intros c. destruct entries as [|e [|e' entries]]; [| |simpl in Hlen; lia].
    - eexists. split; [reflexivity|]. now split.
    - unfold run_scheduler, enumerate. simpl. unfold outer_step, getitem.
      simpl. destruct (is_similar e =? 1)%Z; simpl;
        (eexists; split; [reflexivity|]; now split). }
  destruct (Hrun chunks) as (final & H1 & H2 & H3).
  exists final. repeat (split; [assumption|]).
  destruct (Hrun CHUNKS) as (final' & G1 & _ & G3).
  unfold find_similar_entries. rewrite G1. simpl. now rewrite G3.
Qed.

(** ** The prompt, in general *)

Lemma prompt_cons (line : string) (rest : list string) :
  prompt (line :: rest)
  = if String.eqb line "n" then SysExit 0
    else if String.eqb line "y" then Proceed
    else prompt rest.
Proof. unfold prompt at 1. apply prompt_loop_unfold. Qed.

(** X13: the prompt discards every answer other than [y] and [n]; the first
    [y] proceeds, the first [n] exits with status 0, whatever follows, and
    when the input ends before either the read raises [EOFError]. *)
Theorem prompt_first_valid_answer (junk rest : list string) :
  Forall (fun line => line ≠ "y" ∧ line ≠ "n") junk →
  prompt (junk ++ "y" :: rest) = Proceed ∧
  prompt (junk ++ "n" :: rest) = SysExit 0 ∧
  prompt junk = PromptEOF.
Proof.
  induction 1 as [|line junk [Hy Hn] _ IH].
  - repeat split; rewrite ?app_nil_l, ?prompt_cons; reflexivity.
  - rewrite <- !app_comm_cons, !prompt_cons.
    apply String.eqb_neq in Hy, Hn. rewrite Hy, Hn. exact IH.
Qed.

(** ** The loader *)

Lemma load_row_entry (row : gmap string string) (e : entry) :
  load_row row = Ok e ↔ row_entry row e.
Proof.
  unfold load_row, row_get, row_entry. split.
  - destruct (row !! "name") as [nm|]; simpl; [|discriminate].
    destruct (row !! "latitude") as [lat|]; simpl; [|discriminate].
    destruct (float_of_str lat) as [x|] eqn:Hx; simpl; [|discriminate].
    destruct (row !! "longitude") as [lon|]; simpl; [|discriminate].
    destruct (float_of_str lon) as [y|] eqn:Hy; simpl; [|discriminate].
    intros [= <-]. simpl. eauto 10.
  - intros (-> & (lat & -> & Hlat) & (lon & -> & Hlon) & Hflag). simpl.
    rewrite Hlat. simpl. rewrite Hlon. simpl. destruct e; simpl in *.
    now subst.
Qed.

(** X14: when every row has a [name], a [latitude] and a [longitude] cell
    and its coordinates parse, loading returns one record per row, in the
    order of the rows, each with the name of its row, the parsed
    coordinates and flag 0. *)
Theorem load_rows_spec (rows : list (gmap string string))
    (entries : list entry) :
  Forall2 row_entry rows entries →
  load (File rows) = Ok entries ∧ length entries = length rows.
Proof.
  intros Hrows. split; [|symmetry; eapply Forall2_length; eauto].
  simpl. induction Hrows as [|row e rows es Hrow _ IH]; simpl; [reflexivity|].
  apply load_row_entry in Hrow. now rewrite Hrow, IH.
Qed.

(** X15: columns other than [name], [latitude] and [longitude] are ignored
    by the loader. *)
Theorem load_row_extra_column (row : gmap string string) (column cell : string) :
  column ≠ "name" → column ≠ "latitude" → column ≠ "longitude" →
  load_row (<[column := cell]> row) = load_row row.
Proof.
  intros H1 H2 H3. unfold load_row, row_get.
  now rewrite !lookup_insert_ne by assumption.
Qed.

(** ** Pruning and the batch size *)

Lemma inner_step_at_once (i j : nat) (entries : list entry)
    (done : list (nat * nat)) :
  inner_step 1 i {| s_entries := entries; tasks := []; counter := 0;
                    ran := done |} j
  = (entries' <- process_entries i j entries ;;
     Ok {| s_entries := entries'; tasks := []; counter := 0;
           ran := done ++ [(i, j)] |}).
Proof.
  unfold inner_step, gather. simpl.
  now destruct (process_entries i j entries).
Qed.

(** X19: the flags depend on the batch size.  Take three unflagged records
    where the first matches the second, the second matches the third and
    the first does not match the third.  With a batch size of 1 each task
    runs as soon as it is created; the second record is flagged when the
    loop reaches it, its row is skipped, and the third record stays
    unflagged although it has a partner.  With [CHUNKS] no task runs before
    all are created, and all three records are flagged. *)
Theorem pruning_depends_on_batch_size (a b c : entry) :
  is_similar a ≠ 1%Z → is_similar b ≠ 1%Z → is_similar c ≠ 1%Z →
  pair_matches a b = true → pair_matches b c = true →
  pair_matches a c = false →
  (∃ final, run_scheduler 1 [a; b; c] = Ok final ∧
     ran final = [(0, 1); (0, 2)] ∧
     s_entries final = [set_is_similar 1 a; set_is_similar 1 b; c]) ∧
  find_similar_entries [a; b; c]
  = Ok [set_is_similar 1 a; set_is_similar 1 b; set_is_similar 1 c].
Proof.
  intros Ha Hb Hc Hab Hbc Hac.
  assert (pair_matches (set_is_similar 1 a) c = false) as Hac'.
  { now rewrite (pair_matches_payload a (set_is_similar 1 a) c c eq_refl eq_refl). }
  assert (pair_matches (set_is_similar 1 b) c = true) as Hbc'.
  { now rewrite (pair_matches_payload b (set_is_similar 1 b) c c eq_refl eq_refl). }
  split.
  - apply Z.eqb_neq in Ha, Hc.
    assert (outer_step 1 3 (initial [a; b; c]) 0
            = Ok {| s_entries := [set_is_similar 1 a; set_is_similar 1 b; c];
                    tasks := []; counter := 0; ran := [(0, 1); (0, 2)] |})
      as Hrow0.
    { unfold outer_step, initial. simpl. rewrite Ha.
      rewrite inner_step_at_once.
      rewrite (process_entries_eq [a; b; c] 0 1 a b eq_refl eq_refl), Hab.
      simpl. rewrite inner_step_at_once.
      rewrite (process_entries_eq [set_is_similar 1 a; set_is_similar 1 b; c] 0 2
               (set_is_similar 1 a) c eq_refl eq_refl),
        Hac'.
      reflexivity. }
    unfold run_scheduler, enumerate. simpl. rewrite Hrow0. simpl.
    unfold outer_step. simpl. rewrite Hc. simpl.
    eexists. split; [reflexivity|]. now split.
  - destruct (run_scheduler_deferred CHUNKS [a; b; c])
      as (final & Hrun & _ & Hgather & _).
    { intros e He. in_sample He; assumption. }
    { reflexivity. }
    unfold find_similar_entries. rewrite Hrun. simpl. f_equal.
    unfold gather in Hgather. simpl in Hgather.
    rewrite (process_entries_eq [a; b; c] 0 1 a b eq_refl eq_refl), Hab
      in Hgather.
    simpl in Hgather.
    rewrite (process_entries_eq [set_is_similar 1 a; set_is_similar 1 b; c] 0 2
               (set_is_similar 1 a) c eq_refl eq_refl),
      Hac' in Hgather.
    simpl in Hgather.
    rewrite (process_entries_eq [set_is_similar 1 a; set_is_similar 1 b; c] 1 2
               (set_is_similar 1 b) c eq_refl eq_refl),
      Hbc' in Hgather.
    unfold bind in Hgather. injection Hgather as <-. reflexivity.
Qed.

End Script.

(** ** Exceptions of the distance call *)

Local Close Scope Z_scope.

(** The definitions of [Script] are those of [Raising] for a call that
    always returns. *)
Lemma process_entries_returning
    (great_circle : coordinate → coordinate → float) (i j : nat)
    (entries : list entry) :
  Raising.process_entries (fun c1 c2 => Ok (great_circle c1 c2)) i j entries
  = process_entries great_circle i j entries.
Proof. reflexivity. Qed.

(** X11: [process_entries] reads both records before it computes the
    distance: with an index out of range it raises [IndexError], whatever
    the distance call would do, and whenever it returns, both indices are in
    range and the dataset has the length it had. *)
Theorem process_entries_bounds
    (great_circle : coordinate → coordinate → result float)
    (entries : list entry) (i j : nat) :
  ((length entries ≤ i)%nat ∨ (length entries ≤ j)%nat →
   Raising.process_entries great_circle i j entries = Raise IndexError) ∧
  (∀ entries', Raising.process_entries great_circle i j entries = Ok entries' →
     i < length entries ∧ j < length entries ∧
     length entries' = length entries).
Proof.
  unfold Raising.process_entries, Raising.distance_between_coordinates,
    getitem.
  split.
  - intros Hout.
    destruct (entries !! i) as [e1|] eqn:Hi; simpl; [|reflexivity].
    destruct (entries !! j) as [e2|] eqn:Hj; simpl; [|reflexivity].
    apply lookup_lt_Some in Hi, Hj. lia.
  - intros entries'.
    destruct (entries !! i) as [e1|] eqn:Hi; simpl; [|discriminate].
    destruct (entries !! j) as [e2|] eqn:Hj; simpl; [|discriminate].
    pose proof (lookup_lt_Some _ _ _ Hi) as Hin.
    pose proof (lookup_lt_Some _ _ _ Hj) as Hjn.
    destruct (great_circle (coord e1) (coord e2)) as [d|]; simpl;
      [|discriminate].
    destruct (PrimFloat.ltb MAX_DISTANCE d); [now intros [= <-]|].
    destruct (is_name_similar (name e1) (name e2)); simpl;
      [|now intros [= <-]].
    rewrite (setitem_mark _ _ _ Hi). simpl.
    assert (is_Some (mark i entries !! j)) as [e2' Hj'].
    { apply lookup_lt_is_Some. now rewrite length_mark. }
    rewrite (setitem_mark _ _ _ Hj'). intros [= <-].
    now rewrite !length_mark.
Qed.


(** ** The model at work on the sample data *)


Lemma left_hand_pruning_witness :
  1 < length cafes ∧
  ∃ st_i e_i final,
    enumerate flat_distance 1 cafes (seq 0 1) = Ok st_i ∧
    s_entries st_i !! 1 = Some e_i ∧ is_similar e_i = 1%Z ∧
    run_scheduler flat_distance 1 cafes = Ok final ∧
    ((1, 2) ∉ ran final) ∧ (0, 3) ∈ ran final.
Proof.
  split; [simpl; lia|].
  destruct (left_hand_pruning flat_distance 1 cafes 1)
    as (st & e & final & H1 & H2 & H3 & _ & _ & Hskip); [simpl; lia|].
  destruct (left_hand_pruning flat_distance 1 cafes 0)
    as (st0 & e0 & final0 & G1 & G2 & G3 & _ & Hall & _); [simpl; lia|].
  assert (is_similar e = 1%Z) as Hflag.
  { pose proof H1 as H1'. vm_compute in H1'. injection H1' as <-.
    pose proof H2 as H2'. vm_compute in H2'. injection H2' as <-.
    reflexivity. }
  assert (is_similar e0 ≠ 1%Z) as Hclear.
  { pose proof G1 as G1'. vm_compute in G1'. injection G1' as <-.
    pose proof G2 as G2'. vm_compute in G2'. injection G2' as <-.
    discriminate. }
  assert (final0 = final) as -> by congruence.
  exists st, e, final. repeat (split; [assumption|]).
  split; [now apply Hskip | apply Hall; [assumption | simpl; lia]].
Defined.



Lemma threshold_boundaries_witness :
  0 < 1 ∧
  PrimFloat.eqb (edge_distance (coord cafe_a) (coord cafe_b)) MAX_DISTANCE
    = true ∧
  process_entries edge_distance 0 1 [cafe_a; cafe_b]
  = Ok [flagged cafe_a; flagged cafe_b] ∧
  levenshtein (name cafe_a) (name cafe_nord) = MAX_EDITS ∧
  process_entries flat_distance 0 1 [cafe_a; cafe_nord]
  = Ok [cafe_a; cafe_nord].
Proof.
  split; [lia|]. split; [reflexivity|]. split; [|split; [reflexivity|]].
  - destruct (threshold_boundaries edge_distance [cafe_a; cafe_b] 0 1
                cafe_a cafe_b) as [Hedge _]; [lia | reflexivity ..|].
    destruct Hedge as [_ ->]; reflexivity.
  - destruct (threshold_boundaries flat_distance [cafe_a; cafe_nord] 0 1
                cafe_a cafe_nord) as [_ Hedits]; [lia | reflexivity ..|].
    destruct Hedits as [_ ->]; reflexivity.
Defined.

Lemma process_entries_idempotent_witness :
  0 < 1 < length cafes ∧
  ∃ entries', process_entries flat_distance 0 1 cafes = Ok entries' ∧
              process_entries flat_distance 0 1 entries' = Ok entries' ∧
              entries' = [flagged cafe_a; flagged cafe_b; cafe_c; depot].
Proof.
  split; [simpl; lia|].
  destruct (process_entries_idempotent flat_distance cafes 0 1)
    as (es & Hrun & Hagain); [simpl; lia|].
  exists es. split; [assumption|]. split; [assumption|].
  vm_compute in Hrun. now injection Hrun as <-.
Defined.


Lemma flag_starts_zero_and_monotonic_witness :
  (∃ entries, load sample_float (File [row_roma; row_rome]) = Ok entries ∧
     ∀ e, e ∈ entries → is_similar e = 0%Z) ∧
  (∃ final, find_similar_entries flat_distance
              [flagged depot; cafe_a; cafe_b] = Ok final ∧
     ∀ k e', final !! k = Some e' → is_similar e' = 1%Z).
Proof.
  destruct (flag_starts_zero_and_monotonic flat_distance sample_float)
    as (Hload & _ & Hpass).
  split.
  - exists [cafe_a; cafe_b]. split; [reflexivity|].
    apply (Hload (File [row_roma; row_rome])). reflexivity.
  - destruct (Hpass [flagged depot; cafe_a; cafe_b]) as (final & Hrun & _ & Hmono).
    exists final. split; [exact Hrun|]. intros k e' Hk.
    pose proof Hrun as Hrun'. vm_compute in Hrun'. injection Hrun' as <-.
    destruct k as [|[|[|k]]]; simpl in Hk; try discriminate.
    + apply (Hmono 0 (flagged depot) e' eq_refl Hk). reflexivity.
    + now injection Hk as <-.
    + now injection Hk as <-.
Defined.

Lemma frame_condition_witness :
  (∃ entries', process_entries flat_distance 0 1 cafes = Ok entries' ∧
     payload <$> entries' = payload <$> cafes ∧
     entries' !! 2 = Some cafe_c ∧ entries' !! 3 = Some depot) ∧
  (∃ final, find_similar_entries flat_distance cafes = Ok final ∧
     payload <$> final = payload <$> cafes ∧ length final = 4).
Proof.
  destruct (frame_condition flat_distance cafes) as [Hone Hpass]. split.
  - exists [flagged cafe_a; flagged cafe_b; cafe_c; depot].
    assert (process_entries flat_distance 0 1 cafes
            = Ok [flagged cafe_a; flagged cafe_b; cafe_c; depot]) as Hrun
      by reflexivity.
    split; [exact Hrun|]. destruct (Hone 0 1 _ Hrun) as [Hpay Hrest].
    split; [exact Hpay|]. split; apply Hrest; lia.
  - destruct Hpass as (final & Hrun & Hpay & Hlen). exists final. auto.
Defined.

Lemma load_error_exits_zero_witness :
  (load_error sample_float NoFile ∧
   script flat_distance sample_float NoFile ["y"] true = Exit 0) ∧
  (load_error sample_float (File [row_roma; row_no_latitude]) ∧
   script flat_distance sample_float (File [row_roma; row_no_latitude])
     ["y"] true = Exit 0) ∧
  (load_error sample_float (File [row_bad_longitude]) ∧
   script flat_distance sample_float (File [row_bad_longitude]) ["y"] true
   = Exit 0) ∧
  script flat_distance sample_float (File [row_roma; row_rome]) ["y"] true
  = Finished [flagged cafe_a; flagged cafe_b] true.
Proof.
  assert (load_error sample_float NoFile) as H1 by now left.
  assert (load_error sample_float (File [row_roma; row_no_latitude])) as H2.
  { right. exists [row_roma; row_no_latitude], row_no_latitude.
    split; [reflexivity|]. split; [apply elem_of_cons; right; left|].
    right. left. reflexivity. }
  assert (load_error sample_float (File [row_bad_longitude])) as H3.
  { right. exists [row_bad_longitude], row_bad_longitude.
    split; [reflexivity|]. split; [left|].
    right. right. right. right. exists "east". now split. }
  split; [split; [exact H1|]|split; [split; [exact H2|]|split; [split; [exact H3|]|]]].
  - apply (load_error_exits_zero flat_distance sample_float _ ["y"] true H1).
  - apply (load_error_exits_zero flat_distance sample_float _ ["y"] true H2).
  - apply (load_error_exits_zero flat_distance sample_float _ ["y"] true H3).
  - reflexivity.
Defined.

(** ** End-to-end runs *)

(** Two records with the same name about 109 m apart: both are flagged. *)
Example same_name_nearby :
  script flat_distance sample_float (File [row_roma; row_roma]) ["y"] true
  = Finished [flagged cafe_a; flagged cafe_a] true
  ∧ find_similar_entries flat_distance [cafe_a; cafe_b]
    = Ok [flagged cafe_a; flagged cafe_b].
Proof. split; reflexivity. Qed.

(** Two records with the same name far apart, and two records at the same
    place whose names are five edits apart: none is flagged. *)
Example far_apart_or_unlike :
  find_similar_entries flat_distance [cafe_a; cafe_far] = Ok [cafe_a; cafe_far]
  ∧ find_similar_entries flat_distance [cafe_a; cafe_nord]
    = Ok [cafe_a; cafe_nord].
Proof. split; reflexivity. Qed.

(** Datasets of size 0 and 1: no pair is evaluated. *)
Example no_pairs :
  run_scheduler flat_distance CHUNKS [] = Ok (initial [])
  ∧ run_scheduler flat_distance CHUNKS [depot] = Ok (initial [depot]).
Proof. split; reflexivity. Qed.

(** With a batch size of 1 each task runs as soon as it is created, and the
    rows of the records flagged by row 0 are skipped; with [CHUNKS] all six
    tasks of a dataset of four are created before any of them runs. *)
Example batches :
  (∃ st, run_scheduler flat_distance 1 cafes = Ok st
         ∧ ran st = [(0, 1); (0, 2); (0, 3)])
  ∧ (∃ st, run_scheduler flat_distance CHUNKS cafes = Ok st
           ∧ ran st = [(0, 1); (0, 2); (0, 3); (1, 2); (1, 3); (2, 3)]).
Proof. split; eexists; split; reflexivity. Qed.

(** ** Further runs on the sample data *)

Lemma short_names_are_similar_witness :
  String.length "Bar" < MAX_EDITS ∧ String.length "Pub" < MAX_EDITS ∧
  is_name_similar "Bar" "Pub" = true.
Proof.
  assert (String.length "Bar" < MAX_EDITS) as H1 by (vm_compute; lia).
  assert (String.length "Pub" < MAX_EDITS) as H2 by (vm_compute; lia).
  split; [exact H1|]. split; [exact H2|].
  exact (short_names_are_similar "Bar" "Pub" H1 H2).
Defined.

Lemma length_gap_not_similar_witness :
  (String.length "Cafe" + MAX_EDITS ≤ String.length "Cafe Roma")%nat ∧
  is_name_similar "Cafe" "Cafe Roma" = false.
Proof.
  assert (String.length "Cafe" + MAX_EDITS ≤ String.length "Cafe Roma")%nat
    as H
    by (vm_compute; lia).
  split; [exact H|].
  exact (length_gap_not_similar "Cafe" "Cafe Roma" (or_introl H)).
Defined.


Lemma process_entries_swap_witness :
  flat_distance (coord cafe_b) (coord cafe_a)
  = flat_distance (coord cafe_a) (coord cafe_b) ∧
  process_entries flat_distance 1 0 cafes
  = Ok [flagged cafe_a; flagged cafe_b; cafe_c; depot].
Proof.
  split; [reflexivity|].
  rewrite (process_entries_swap flat_distance cafes 0 1 cafe_a cafe_b);
    reflexivity.
Defined.

Lemma matching_pair_flags_witness :
  pair_matches flat_distance cafe_b cafe_c = true ∧
  ∃ final, run_scheduler flat_distance 1 cafes = Ok final ∧
    ((1, 2) ∉ ran final) ∧
    ∃ e, s_entries final !! 1 = Some e ∧ is_similar e = 1%Z.
Proof.
  split; [reflexivity|].
  destruct (matching_pair_flags flat_distance 1 cafes) as (final & Hrun & Hall).
  exists final. split; [exact Hrun|]. split.
  - pose proof Hrun as Hrun'. vm_compute in Hrun'. injection Hrun' as <-.
    simpl. intros Hin.
    repeat (apply elem_of_cons in Hin as [Heq|Hin]; [discriminate Heq|]).
    now apply elem_of_nil in Hin.
  - apply (Hall 1 2 cafe_b cafe_c); [lia | reflexivity ..].
Defined.

Lemma small_dataset_all_pairs_witness :
  (∀ e, e ∈ cafes → is_similar e ≠ 1%Z) ∧
  (Z.of_nat (length cafes * (length cafes - 1)) < 2 * CHUNKS)%Z ∧
  ∃ final, run_scheduler flat_distance CHUNKS cafes = Ok final ∧
    ran final = [(0, 1); (0, 2); (0, 3); (1, 2); (1, 3); (2, 3)].
Proof.
  assert (∀ e, e ∈ cafes → is_similar e ≠ 1%Z) as Hclear.
  { intros e He. unfold cafes in He. in_sample He; discriminate. }
  assert (Z.of_nat (length cafes * (length cafes - 1)) < 2 * CHUNKS)%Z as Hroom
    by reflexivity.
  split; [exact Hclear|]. split; [exact Hroom|].
  destruct (small_dataset_all_pairs flat_distance CHUNKS cafes Hclear Hroom)
    as (final & Hrun & Hran & _).
  exists final. split; [exact Hrun|]. rewrite Hran. reflexivity.
Defined.

Lemma small_dataset_flags_exact_witness :
  (∀ e, e ∈ cafes → is_similar e ≠ 1%Z) ∧
  (Z.of_nat (length cafes * (length cafes - 1)) < 2 * CHUNKS)%Z ∧
  has_partner (fun a b => pair_matches flat_distance a b = true) cafes 0 ∧
  ¬ has_partner (fun a b => pair_matches flat_distance a b = true) cafes 3.
Proof.
  assert (∀ e, e ∈ cafes → is_similar e ≠ 1%Z) as Hclear.
  { intros e He. unfold cafes in He. in_sample He; discriminate. }
  assert (Z.of_nat (length cafes * (length cafes - 1)) < 2 * CHUNKS)%Z as Hroom
    by reflexivity.
  split; [exact Hclear|]. split; [exact Hroom|].
  destruct (small_dataset_flags_exact flat_distance CHUNKS cafes Hclear Hroom)
    as (final & Hrun & Hiff).
  vm_compute in Hrun. injection Hrun as <-. split.
  - now apply (Hiff 0 (flagged cafe_a)).
  - intros Hp. apply (Hiff 3 depot) in Hp; [discriminate Hp | reflexivity].
Defined.

Lemma tiny_dataset_unchanged_witness :
  (length [flagged depot] ≤ 1)%nat ∧
  find_similar_entries flat_distance [flagged depot] = Ok [flagged depot].
Proof.
  assert (length [flagged depot] ≤ 1)%nat as Hlen by (simpl; lia).
  split; [exact Hlen|].
  destruct (tiny_dataset_unchanged flat_distance CHUNKS [flagged depot] Hlen)
    as (final & _ & _ & _ & Hrun).
  exact Hrun.
Defined.

Lemma prompt_first_valid_answer_witness :
  Forall (fun line => line ≠ "y" ∧ line ≠ "n") ["Y"; "yes"; ""] ∧
  prompt ["Y"; "yes"; ""; "y"; "n"] = Proceed ∧
  prompt ["Y"; "yes"; ""; "n"; "y"] = SysExit 0 ∧
  prompt ["Y"; "yes"; ""] = PromptEOF.
Proof.
  assert (Forall (fun line => line ≠ "y" ∧ line ≠ "n") ["Y"; "yes"; ""])
    as Hjunk.
  { repeat constructor; discriminate. }
  split; [exact Hjunk|].
  destruct (prompt_first_valid_answer ["Y"; "yes"; ""] ["n"] Hjunk)
    as (Hy & _ & Heof).
  destruct (prompt_first_valid_answer ["Y"; "yes"; ""] ["y"] Hjunk)
    as (_ & Hn & _).
  split; [exact Hy|]. split; [exact Hn | exact Heof].
Defined.

Lemma load_row_extra_column_witness :
  "city" ≠ "name" ∧ "city" ≠ "latitude" ∧ "city" ≠ "longitude" ∧
  load_row sample_float (<["city" := "Roma"]> row_rome) = Ok cafe_b.
Proof.
  assert ("city" ≠ "name") as H1 by discriminate.
  assert ("city" ≠ "latitude") as H2 by discriminate.
  assert ("city" ≠ "longitude") as H3 by discriminate.
  repeat (split; [assumption|]).
  rewrite (load_row_extra_column sample_float row_rome "city" "Roma" H1 H2 H3).
  reflexivity.
Defined.

Lemma pruning_depends_on_batch_size_witness :
  pair_matches flat_distance cafe_a cafe_b = true ∧
  pair_matches flat_distance cafe_b cafe_d = true ∧
  pair_matches flat_distance cafe_a cafe_d = false ∧
  (∃ final, run_scheduler flat_distance 1 chain = Ok final ∧
     ran final = [(0, 1); (0, 2)] ∧
     s_entries final = [flagged cafe_a; flagged cafe_b; cafe_d]) ∧
  find_similar_entries flat_distance chain
  = Ok [flagged cafe_a; flagged cafe_b; flagged cafe_d].
Proof.
  split; [reflexivity|]. split; [reflexivity|]. split; [reflexivity|].
  apply (pruning_depends_on_batch_size flat_distance cafe_a cafe_b cafe_d);
    try discriminate; reflexivity.
Defined.

Lemma evaluated_pairs_are_candidates_witness :
  ∃ final, run_scheduler flat_distance 1 cafes = Ok final ∧
    ran final = [(0, 1); (0, 2); (0, 3)] ∧
    NoDup (ran final) ∧
    (∀ i j, (i, j) ∈ ran final → i < j < length cafes) ∧
    (2 * length (ran final) ≤ length cafes * (length cafes - 1))%nat.
Proof.
  assert (∃ final, run_scheduler flat_distance 1 cafes = Ok final ∧
                   ran final = [(0, 1); (0, 2); (0, 3)])
    as (final & Hrun & Hran) by (eexists; split; reflexivity).
  destruct (evaluated_pairs_are_candidates flat_distance 1 cafes final Hrun)
    as (_ & Hnodup & Hcand & Hcount).
  exists final. auto.
Defined.

Lemma process_entries_bounds_witness :
  Raising.process_entries checked_distance 0 4 cafes = Raise IndexError ∧
  Raising.process_entries checked_distance 0 2 [cafe_nan; cafe_a]
  = Raise IndexError ∧
  ∃ entries', Raising.process_entries checked_distance 0 3 cafes = Ok entries' ∧
              length entries' = 4.
Proof.
  destruct (process_entries_bounds checked_distance cafes 0 4) as [Hout _].
  destruct (process_entries_bounds checked_distance [cafe_nan; cafe_a] 0 2)
    as [Hout' _].
  destruct (process_entries_bounds checked_distance cafes 0 3) as [_ Hin].
  split; [apply Hout; right; simpl; lia|].
  split; [apply Hout'; right; simpl; lia|].
  assert (∃ entries', Raising.process_entries checked_distance 0 3 cafes
                      = Ok entries') as [es Hrun] by (eexists; reflexivity).
  exists es. split; [exact Hrun|]. now apply Hin.
Defined.

Lemma load_rows_spec_witness :
  Forall2 (row_entry sample_float) [row_roma; row_rome] [cafe_a; cafe_b] ∧
  load sample_float (File [row_roma; row_rome]) = Ok [cafe_a; cafe_b].
Proof.
  assert (Forall2 (row_entry sample_float) [row_roma; row_rome]
            [cafe_a; cafe_b]) as Hrows.
  { repeat constructor; eexists; split; reflexivity. }
  split; [exact Hrows|].
  apply (load_rows_spec sample_float _ _ Hrows).
Defined.
